(** * The TMDb resolution-and-caching core of the Letterboxd dashboard

    A shallow embedding of [src/tmdb.py]: the search-cache key, the
    candidate selection policy, the runtime normalisation, the record
    cache client [title_with_credits] and the thread-pool orchestrator
    [resolve_and_fetch_credits_parallel], followed by the properties of
    the specification that concern them and by further properties of
    the cache files, of [search_multi], of one worker and of a batch.

    Conventions.
    - Python [str] values are Rocq strings; [strip], [lower] and
      [isdigit] are modelled on ASCII.
    - Python [int] is [Z]; [Optional[int]] is [option Z].
    - JSON dictionaries whose shape the code probes dynamically (the
      record payload) are [gmap string pyval]; dictionaries with a
      fixed, documented schema (search results, search-cache entries)
      are records whose optional keys are [option] fields.
    - Exceptions are values of type [exn]; a function that can raise
      returns a [result]. Side effects performed before a raise stay. *)

From stdpp Require Import gmap strings list fin_maps pretty.
From Stdlib Require Import ZArith Ascii.

Set Warnings "-register-all".
Open Scope Z_scope.

(** ** Python values *)

(** The values [json.load] and [r.json()] produce (floats are left out:
    no code path modelled here inspects one). *)
Inductive pyval :=
| PNone
| PBool (b : bool)
| PInt (z : Z)
| PStr (s : string)
| PList (l : list pyval)
| PDict (d : list (string * pyval)).

(** [bool(v)]: the truth value Python gives [v] in [v or w] and [not v]. *)
Definition truthy (v : pyval) : bool :=
  match v with
  | PNone => false
  | PBool b => b
  | PInt z => negb (z =? 0)
  | PStr s => negb (String.eqb s "")
  | PList l => match l with [] => false | _ => true end
  | PDict d => match d with [] => false | _ => true end
  end.

(** [v or w]. *)
Definition py_or (v w : pyval) : pyval := if truthy v then v else w.

(** [isinstance(v, int)] together with [int(v)]: [bool] is a subclass
    of [int] in Python, [True] being [1] and [False] being [0]. *)
Definition as_int (v : pyval) : option Z :=
  match v with
  | PInt z => Some z
  | PBool b => Some (if b then 1 else 0)
  | _ => None
  end.

(** [d.get(k)] on a payload dictionary: [None] when the key is absent. *)
Definition py_get (d : gmap string pyval) (k : string) : pyval :=
  default PNone (d !! k).

(** ** Strings *)

(** [c.isspace()] for an ASCII character: tab, line feed, vertical tab,
    form feed, carriage return, the four separators 0x1c-0x1f, space. *)
Definition is_space (c : ascii) : bool :=
  let n := nat_of_ascii c in
  ((9 <=? n)%nat && (n <=? 13)%nat) || ((28 <=? n)%nat && (n <=? 32)%nat).

Fixpoint lstrip (s : string) : string :=
  match s with
  | String c s' => if is_space c then lstrip s' else s
  | EmptyString => EmptyString
  end.

Fixpoint rstrip (s : string) : string :=
  match s with
  | String c s' =>
      let r := rstrip s' in
      if is_space c && String.eqb r "" then EmptyString else String c r
  | EmptyString => EmptyString
  end.

(** [s.strip()]. *)
Definition strip (s : string) : string := rstrip (lstrip s).

Definition lower_char (c : ascii) : ascii :=
  let n := nat_of_ascii c in
  if (65 <=? n)%nat && (n <=? 90)%nat then ascii_of_nat (n + 32) else c.

(** [s.lower()]. *)
Fixpoint lower (s : string) : string :=
  match s with
  | String c s' => String (lower_char c) (lower s')
  | EmptyString => EmptyString
  end.

Definition is_digit (c : ascii) : bool :=
  let n := nat_of_ascii c in (48 <=? n)%nat && (n <=? 57)%nat.

(** [s.isdigit()]: every character is a digit and there is at least one. *)
Fixpoint all_digits (s : string) : bool :=
  match s with
  | String c s' => is_digit c && all_digits s'
  | EmptyString => true
  end.

Definition isdigit (s : string) : bool :=
  negb (String.eqb s "") && all_digits s.

(** [int(s)] for a string of digits, most significant first. *)
Fixpoint int_of_digits_from (acc : Z) (s : string) : Z :=
  match s with
  | String c s' =>
      int_of_digits_from (10 * acc + (Z.of_nat (nat_of_ascii c) - 48)) s'
  | EmptyString => acc
  end.

Definition int_of_digits (s : string) : Z := int_of_digits_from 0 s.



(** ** The search-cache key *)

(** [year if year is not None else ''], as the f-string formats it:
    the decimal digits of [year], after a minus sign when it is negative. *)
Definition year_text (year : option Z) : string :=
  match year with
  | Some y => pretty y
  | None => ""
  end.

(** [_search_cache_key]:
    [f"{title.strip().lower()}|{year if year is not None else ''}"]. *)
Definition _search_cache_key (title : string) (year : option Z) : string :=
  lower (strip title) +:+ "|" +:+ year_text year.

(** ** Search results and the selection policy *)

(** One item of the [results] array of [/search/multi]. The keys the
    code reads with [.get] may be absent or null; [id] is read with
    [r["id"]] and converted with [int]. *)
Record candidate := {
  c_media_type : option string;
  c_release_date : option string;
  c_first_air_date : option string;
  c_id : Z
}.

(** [r.get(k) or ""] for a date key. *)
Definition or_empty (d : option string) : string :=
  match d with
  | Some s => s
  | None => ""
  end.

(** The date the year test looks at: [release_date] for a movie,
    [first_air_date] for anything else. *)
Definition candidate_date (r : candidate) : string :=
  if decide (c_media_type r = Some "movie")
  then or_empty (c_release_date r)
  else or_empty (c_first_air_date r).

(** [len(d) >= 4 and d[:4].isdigit() and int(d[:4]) == int(year)]. *)
Definition year_matches (year : Z) (r : candidate) : bool :=
  let d := candidate_date r in
  (4 <=? String.length d)%nat
  && isdigit (String.substring 0 4 d)
  && (int_of_digits (String.substring 0 4 d) =? year).

(** What [_pick_best_result] returns for the candidate it picks in the
    loop: [(media_type, int(r["id"]))]. *)
Definition identity_of (r : candidate) : option string * Z := (c_media_type r, c_id r).

(** The [for r in results] loop of [_pick_best_result]. *)
Fixpoint first_year_match (results : list candidate) (year : Z)
  : option (option string * Z) :=
  match results with
  | [] => None
  | r :: rest =>
      if year_matches year r then Some (identity_of r)
      else first_year_match rest year
  end.

(** [_pick_best_result]: [(media_type, id)] or [None]. *)
Definition _pick_best_result (results : list candidate) (year : option Z)
  : option (option string * Z) :=
  match results with
  | [] => None
  | top :: _ =>
      let fallback := (Some (default "movie"%string (c_media_type top)), c_id top) in
      match year with
      | Some y =>
          match first_year_match results y with
          | Some picked => Some picked
          | None => Some fallback
          end
      | None => Some fallback
      end
  end.

(** ** Runtime normalisation *)

(** Not a strictly positive integer. *)
Definition not_positive (v : pyval) : Prop :=
  match as_int v with
  | Some z => z ≤ 0
  | None => True
  end.

(** The [for x in rts] loop of [_normalized_runtime_minutes]. *)
Fixpoint first_positive (rts : list pyval) : Z :=
  match rts with
  | [] => 0
  | x :: rest =>
      match as_int x with
      | Some z => if 0 <? z then z else first_positive rest
      | None => first_positive rest
      end
  end.

(** [_normalized_runtime_minutes]. *)
Definition _normalized_runtime_minutes
    (payload : gmap string pyval) (media_type : string) : Z :=
  if decide (media_type = "movie"%string) then
    match as_int (py_get payload "runtime") with
    | Some rt => if 0 <? rt then rt else 0
    | None => 0
    end
  else
    match py_or (py_get payload "episode_run_time") (PList []) with
    | PList rts => first_positive rts
    | _ => 0
    end.

(** ** Caches, the remote catalog and exceptions *)

(** A value of the search cache: [{"media_type": ..., "id": ...}]. What
    [cached.get] returns for a missing or null key is [None]. *)
Record entry := {
  e_media_type : option string;
  e_id : option Z
}.

(** The full payload of one title, a JSON object. *)
Abbreviation payload := (gmap string pyval).

(** What the code can raise: a failed request ([requests.get] or
    [raise_for_status]) and the [ValueError] of a thread pool created
    with no worker. *)
Inductive exn := TransportError | ValueError.

Inductive result (A : Type) :=
| Ok (a : A)
| Raise (e : exn).
Arguments Ok {A} a.
Arguments Raise {A} e.

(** A request sent to the remote catalog. *)
Inductive call :=
| SearchCall (query : string)
| TitleCall (media_type : string) (tmdb_id : Z).

(** Everything the workers of a batch share.
    - [search_cache]: the dictionary local to the running
      [resolve_and_fetch_credits_parallel], captured by its workers;
    - [search_file]: the content of [.cache/search_cache.json], [None]
      when the file is absent or unreadable;
    - [title_files]: the readable files of [.cache/titles], by name;
    - [calls]: the requests sent so far, oldest first, each with the
      index of the worker that sent it (a ghost field: no code reads it). *)
Record state := {
  search_cache : gmap string entry;
  search_file : option (gmap string entry);
  title_files : gmap (string * Z) payload;
  calls : list (nat * call)
}.

Definition set_search_cache (c : gmap string entry) (st : state) : state :=
  {| search_cache := c; search_file := search_file st;
     title_files := title_files st; calls := calls st |}.

Definition set_search_file (f : option (gmap string entry)) (st : state) : state :=
  {| search_cache := search_cache st; search_file := f;
     title_files := title_files st; calls := calls st |}.

Definition set_title_files (t : gmap (string * Z) payload) (st : state) : state :=
  {| search_cache := search_cache st; search_file := search_file st;
     title_files := t; calls := calls st |}.

Definition log_call (tid : nat) (c : call) (st : state) : state :=
  {| search_cache := search_cache st; search_file := search_file st;
     title_files := title_files st; calls := calls st ++ [(tid, c)] |}.

(** The state before anything was cached or requested. *)
Definition cold : state :=
  {| search_cache := ∅; search_file := None; title_files := ∅; calls := [] |}.

(** [_load_search_cache]: the file's mapping, or [{}]. *)
Definition _load_search_cache (st : state) : gmap string entry :=
  default ∅ (search_file st).

(** [_save_search_cache]. *)
Definition _save_search_cache (cache : gmap string entry) (st : state) : state :=
  set_search_file (Some cache) st.

(** [_title_cache_path]: the file [f"{safe_type}_{tmdb_id}.json"], named
    here by the pair it is formatted from. *)
Definition _title_cache_path (media_type : string) (tmdb_id : Z) : string * Z :=
  (if decide (media_type = "tv"%string) then "tv"%string else "movie"%string, tmdb_id).

(** [_load_title_from_cache]. *)
Definition _load_title_from_cache (media_type : string) (tmdb_id : Z) (st : state)
  : option payload :=
  title_files st !! _title_cache_path media_type tmdb_id.

(** [_save_title_to_cache]. *)
Definition _save_title_to_cache
    (media_type : string) (tmdb_id : Z) (p : payload) (st : state) : state :=
  set_title_files (<[_title_cache_path media_type tmdb_id := p]> (title_files st)) st.

(** Computations of worker [tid]: they read and change the shared state
    and return a value or raise. *)
Definition M (A : Type) : Type := nat → state → result A * state.

Definition ret {A} (a : A) : M A := λ _ st, (Ok a, st).

Definition raise {A} (e : exn) : M A := λ _ st, (Raise e, st).

Definition bind {A B} (m : M A) (k : A → M B) : M B :=
  λ tid st,
    match m tid st with
    | (Ok a, st') => k a tid st'
    | (Raise e, st') => (Raise e, st')
    end.

Notation "'let!' x ':=' m 'in' k" := (bind m (λ x, k))
  (at level 10, x pattern, m at level 100, k at level 200).

(** Read the shared state. *)
Definition gets {A} (f : state → A) : M A := λ _ st, (Ok (f st), st).

(** Change the shared state. *)
Definition modify (f : state → state) : M unit := λ _ st, (Ok tt, f st).

(** The outcome of one unit of work: [("NO_MATCH", title, year)] or
    [("OK", payload)]. *)
Inductive outcome :=
| NO_MATCH (title : string) (year : option Z)
| OK (p : payload).

(** The test [not tmdb_id or media_type not in ("movie", "tv")]: [None]
    when it holds, the media type (then a string) when it does not. *)
Definition usable (media_type : option string) (tmdb_id : Z) : option string :=
  if tmdb_id =? 0 then None
  else
    match media_type with
    | Some mt =>
        if bool_decide (mt = "movie"%string ∨ mt = "tv"%string) then Some mt else None
    | None => None
    end.

(** ** Example data *)

Definition movie (d : string) (i : Z) : candidate :=
  {| c_media_type := Some "movie"%string; c_release_date := Some d;
     c_first_air_date := None; c_id := i |}.

Definition tv (d : string) (i : Z) : candidate :=
  {| c_media_type := Some "tv"%string; c_release_date := None;
     c_first_air_date := Some d; c_id := i |}.

Definition person (i : Z) : candidate :=
  {| c_media_type := Some "person"%string; c_release_date := None;
     c_first_air_date := None; c_id := i |}.

(** A remote catalog that tells queries apart by their case, knows a
    title under the id 0, and fails for one query and for one record. *)
Definition demo_search (token query : string) : option (list candidate) :=
  if String.eqb query "Up" then Some [movie "2009-05-29" 1]
  else if String.eqb query "up" then Some [tv "2011-01-01" 2]
  else if String.eqb query "Heat" then Some [person 9; movie "1995-12-15" 3]
  else if String.eqb query "Ghost" then Some [movie "" 0]
  else if String.eqb query "Down" then None
  else Some [].

Definition demo_title (token media_type : string) (tmdb_id : Z) : option payload :=
  if tmdb_id =? 3 then None
  else Some (<["runtime"%string := PInt (100 + tmdb_id)]> ∅).


(** The state of a run that finds [cache] in the search-cache file and
    [records] in the record cache. *)
Definition warm (cache : gmap string entry) (records : gmap (string * Z) payload) : state :=
  {| search_cache := ∅; search_file := Some cache; title_files := records; calls := [] |}.

Section Catalog.

(** The credential, and the two endpoints of the remote catalog as the
    code sees them: the [results] array of [GET /search/multi] and the
    JSON object of [GET /{media_type}/{id}] with credits and keywords
    appended; [None] when the request fails (no answer in time, or a
    status that [raise_for_status] rejects). *)
Variable read_access_token : string.
Variable tmdb_search_multi : string → string → option (list candidate).
Variable tmdb_title : string → string → Z → option payload.

(** [requests.get], [raise_for_status] and [r.json()]: the answer, or
    [TransportError]; the request is sent in both cases. *)
Definition request {A} (c : call) (answer : option A) : M A :=
  λ tid st,
    match answer with
    | Some a => (Ok a, log_call tid c st)
    | None => (Raise TransportError, log_call tid c st)
    end.

(** The request of [search_multi]. *)
Definition get_search_multi (title : string) : M (list candidate) :=
  request (SearchCall title) (tmdb_search_multi read_access_token title).

(** The request of [title_with_credits]. *)
Definition get_title (media_type : string) (tmdb_id : Z) : M payload :=
  request (TitleCall media_type tmdb_id) (tmdb_title read_access_token media_type tmdb_id).

(** [x.get("media_type") in ("movie", "tv")]. *)
Definition movie_or_tv (x : candidate) : bool :=
  bool_decide (c_media_type x = Some "movie"%string ∨ c_media_type x = Some "tv"%string).

(** [search_multi]. *)
Definition search_multi (title : string) : M (list candidate) :=
  let! results := get_search_multi title in
  ret (List.filter movie_or_tv results).

(** The two helper keys [title_with_credits] adds to a fetched payload. *)
Definition with_helpers (p : payload) (media_type : string) : payload :=
  let p1 := <["_media_type"%string := PStr media_type]> p in
  <["_normalized_runtime"%string := PInt (_normalized_runtime_minutes p1 media_type)]> p1.

(** [title_with_credits]. *)
Definition title_with_credits (media_type : string) (tmdb_id : Z) : M payload :=
  let! cached := gets (_load_title_from_cache media_type tmdb_id) in
  match cached with
  | Some p => ret p
  | None =>
      let! p := get_title media_type tmdb_id in
      let p := with_helpers p media_type in
      let! _ := modify (_save_title_to_cache media_type tmdb_id p) in
      ret p
  end.

(** The tail of [worker], from the test on the resolved identifier. *)
Definition fetch_resolved
    (title : string) (year : option Z) (media_type : option string) (tmdb_id : Z)
  : M outcome :=
  match usable media_type tmdb_id with
  | None => ret (NO_MATCH title year)
  | Some media_type =>
      let! p := title_with_credits media_type tmdb_id in
      ret (OK p)
  end.

(** [worker], run without interruption. *)
Definition worker (title : string) (year : option Z) : M outcome :=
  let key := _search_cache_key title year in
  let! cached := gets (λ st, search_cache st !! key) in
  match cached with
  | None =>
      let! results := search_multi title in
      match _pick_best_result results year with
      | None =>
          let! _ := modify (λ st, set_search_cache
                      (<[key := {| e_media_type := None; e_id := Some 0 |}]>
                         (search_cache st)) st) in
          ret (NO_MATCH title year)
      | Some (media_type, tmdb_id) =>
          let! _ := modify (λ st, set_search_cache
                      (<[key := {| e_media_type := media_type; e_id := Some tmdb_id |}]>
                         (search_cache st)) st) in
          fetch_resolved title year media_type tmdb_id
      end
  | Some cached =>
      let media_type := e_media_type cached in
      let tmdb_id := default 0 (e_id cached) in
      fetch_resolved title year media_type tmdb_id
  end.

(** The entry a worker writes for [(title, year)] after a search that
    did not fail: lines 188 to 196 of [worker]. *)
Definition none_entry : entry := {| e_media_type := None; e_id := Some 0 |}.

Definition entry_of_pick (picked : option (option string * Z)) : entry :=
  match picked with
  | None => none_entry
  | Some (media_type, tmdb_id) =>
      {| e_media_type := media_type; e_id := Some tmdb_id |}
  end.

Definition resolved_entry (title : string) (year : option Z) : option entry :=
  match tmdb_search_multi read_access_token title with
  | Some results =>
      Some (entry_of_pick (_pick_best_result (List.filter movie_or_tv results) year))
  | None => None
  end.

(** *** The worker as a thread

    The pool runs several workers at once. Between two accesses to what
    they share (the dictionary under [_cache_lock], a cache file, the
    remote catalog) a worker can be preempted, so a worker is a thread
    that takes one such access per step. A program point names the
    access the thread is about to make and holds its live locals. *)
Inductive pc :=
| Queued                                               (* submitted, not yet taken by a pool thread *)
| AtLookup                                             (* cached = search_cache.get(key) *)
| AtSearch                                             (* results = search_multi(...) *)
| AtStoreNone                                          (* search_cache[key] = {"media_type": None, "id": 0} *)
| AtStore (media_type : option string) (tmdb_id : Z)   (* search_cache[key] = {"media_type": ..., "id": ...} *)
| AtTitleLoad (media_type : string) (tmdb_id : Z)      (* cached = _load_title_from_cache(...) *)
| AtTitleGet (media_type : string) (tmdb_id : Z)       (* r = requests.get(...) *)
| AtTitleSave (media_type : string) (tmdb_id : Z) (p : payload) (* _save_title_to_cache(...) *)
| Finished (r : outcome)                               (* returned *)
| Crashed (e : exn).                                   (* raised *)

(** Where a worker goes once it holds [(media_type, tmdb_id)]. *)
Definition after_resolve
    (title : string) (year : option Z) (media_type : option string) (tmdb_id : Z) : pc :=
  match usable media_type tmdb_id with
  | None => Finished (NO_MATCH title year)
  | Some media_type => AtTitleLoad media_type tmdb_id
  end.

(** One step of the worker [tid] of the query [(title, year)]. *)
Definition wstep (tid : nat) (title : string) (year : option Z) (p : pc) (st : state)
  : pc * state :=
  let key := _search_cache_key title year in
  match p with
  | Queued => (AtLookup, st)
  | AtLookup =>
      match search_cache st !! key with
      | None => (AtSearch, st)
      | Some cached =>
          (after_resolve title year (e_media_type cached) (default 0 (e_id cached)), st)
      end
  | AtSearch =>
      match search_multi title tid st with
      | (Ok results, st') =>
          match _pick_best_result results year with
          | None => (AtStoreNone, st')
          | Some (media_type, tmdb_id) => (AtStore media_type tmdb_id, st')
          end
      | (Raise e, st') => (Crashed e, st')
      end
  | AtStoreNone =>
      (Finished (NO_MATCH title year),
       set_search_cache
         (<[key := {| e_media_type := None; e_id := Some 0 |}]> (search_cache st)) st)
  | AtStore media_type tmdb_id =>
      (after_resolve title year media_type tmdb_id,
       set_search_cache
         (<[key := {| e_media_type := media_type; e_id := Some tmdb_id |}]> (search_cache st)) st)
  | AtTitleLoad media_type tmdb_id =>
      match _load_title_from_cache media_type tmdb_id st with
      | Some cached => (Finished (OK cached), st)
      | None => (AtTitleGet media_type tmdb_id, st)
      end
  | AtTitleGet media_type tmdb_id =>
      match get_title media_type tmdb_id tid st with
      | (Ok p, st') => (AtTitleSave media_type tmdb_id (with_helpers p media_type), st')
      | (Raise e, st') => (Crashed e, st')
      end
  | AtTitleSave media_type tmdb_id p =>
      (Finished (OK p), _save_title_to_cache media_type tmdb_id p st)
  | Finished r => (Finished r, st)
  | Crashed e => (Crashed e, st)
  end.

(** *** The thread pool *)

Definition final (p : pc) : bool :=
  match p with
  | Finished _ | Crashed _ => true
  | _ => false
  end.

Definition crashed (p : pc) : bool :=
  match p with
  | Crashed _ => true
  | _ => false
  end.

Definition queued (p : pc) : bool :=
  match p with
  | Queued => true
  | _ => false
  end.

(** Taken by a pool thread and not yet done. *)
Definition running (p : pc) : bool := negb (queued p) && negb (final p).

(** A batch in flight: the program point of every submitted worker, by
    index of submission, what they share, and the indices of the workers
    that are done, in the order they completed. *)
Record pool := {
  tasks : list pc;
  shared : state;
  completed : list nat
}.

(** May the scheduler let worker [i] take a step? A worker that is done
    takes none. A queued worker is taken when every worker submitted
    before it has been taken (the pool's queue is first in, first out)
    and fewer than [max_workers] workers are running. *)
Definition may_run (max_workers : nat) (ts : list pc) (i : nat) : bool :=
  match ts !! i with
  | Some p =>
      negb (final p)
      && (negb (queued p)
          || (forallb (λ q, negb (queued q)) (take i ts)
              && (List.length (List.filter running ts) <? max_workers)%nat))
  | None => false
  end.

(** The scheduler picks worker [i]: it takes one step if it may. *)
Definition pool_step
    (max_workers : nat) (titles_years : list (string * option Z)) (i : nat) (pl : pool)
  : pool :=
  if may_run max_workers (tasks pl) i then
    match titles_years !! i, tasks pl !! i with
    | Some (title, year), Some p =>
        let '(p', st') := wstep i title year p (shared pl) in
        {| tasks := <[i := p']> (tasks pl);
           shared := st';
           completed := if final p' then completed pl ++ [i] else completed pl |}
    | _, _ => pl
    end
  else pl.

(** A schedule is the list of the scheduler's picks. *)
Definition run_schedule
    (max_workers : nat) (titles_years : list (string * option Z))
    (schedule : list nat) (pl : pool) : pool :=
  fold_left (λ pl i, pool_step max_workers titles_years i pl) schedule pl.

(** Leaving the [with ThreadPoolExecutor] block waits for every worker:
    whatever the schedule left undone runs to its end, a worker taking
    at most seven steps. *)
Definition join_worker
    (max_workers : nat) (titles_years : list (string * option Z)) (pl : pool) (i : nat)
  : pool :=
  Nat.iter 7 (pool_step max_workers titles_years i) pl.

Definition drain
    (max_workers : nat) (titles_years : list (string * option Z)) (pl : pool) : pool :=
  fold_left (join_worker max_workers titles_years)
    (seq 0 (List.length titles_years)) pl.

(** The [for fut in as_completed(futures)] loop: [fut.result()] returns
    the worker's tuple or raises what the worker raised. *)
Fixpoint as_completed_loop
    (ts : list pc) (order : list nat)
    (items : list payload) (no_match_items : list (string * option Z))
  : result (list payload * list (string * option Z)) :=
  match order with
  | [] => Ok (items, no_match_items)
  | i :: rest =>
      match ts !! i with
      | Some (Finished (OK p)) =>
          as_completed_loop ts rest (items ++ [p]) no_match_items
      | Some (Finished (NO_MATCH title year)) =>
          as_completed_loop ts rest items (no_match_items ++ [(title, year)])
      | Some (Crashed e) => Raise e
      | _ => as_completed_loop ts rest items no_match_items
      end
  end.

(** The pool of a batch when its workers have all been submitted. *)
Definition submitted (titles_years : list (string * option Z)) (st : state) : pool :=
  {| tasks := replicate (List.length titles_years) Queued;
     shared := set_search_cache (_load_search_cache st) st;
     completed := [] |}.

(** The pool of a batch when its workers are all done. *)
Definition run_batch
    (titles_years : list (string * option Z)) (max_workers : nat)
    (schedule : list nat) (st : state) : pool :=
  drain max_workers titles_years
    (run_schedule max_workers titles_years schedule (submitted titles_years st)).

(** [resolve_and_fetch_credits_parallel], under a schedule of its pool. *)
Definition resolve_and_fetch_credits_parallel
    (titles_years : list (string * option Z)) (max_workers : nat)
    (schedule : list nat) (st : state)
  : result (list payload * list (string * option Z)) * state :=
  let st0 := set_search_cache (_load_search_cache st) st in
  if (max_workers =? 0)%nat then (Raise ValueError, st0)
  else
    let pl := run_batch titles_years max_workers schedule st in
    match as_completed_loop (tasks pl) (completed pl) [] [] with
    | Ok (items, no_match_items) =>
        (Ok (items, no_match_items),
         _save_search_cache (search_cache (shared pl)) (shared pl))
    | Raise e => (Raise e, shared pl)
    end.

(** Several batches in a row, each with its queries, its number of
    pool threads and its schedule. *)
Definition run_batches
    (runs : list (list (string * option Z) * nat * list nat)) (st : state) : state :=
  fold_left
    (λ st run,
       (resolve_and_fetch_credits_parallel run.1.1 run.1.2 run.2 st).2)
    runs st.


(** ** Notions used by the statements *)

(** How many steps a worker at [p] can still take, at most. *)
Definition steps_left (p : pc) : nat :=
  match p with
  | Queued => 7
  | AtLookup => 6
  | AtSearch => 5
  | AtStoreNone | AtStore _ _ => 4
  | AtTitleLoad _ _ => 3
  | AtTitleGet _ _ => 2
  | AtTitleSave _ _ _ => 1
  | Finished _ | Crashed _ => 0
  end.

(** The shape every pool of [n] workers has: one program point per
    worker; the workers taken from the queue are the first submitted;
    [completed] lists, once each, the workers that are done. *)
Definition well_formed (n : nat) (pl : pool) : Prop :=
  length (tasks pl) = n
  ∧ (∀ j k p, (j < k)%nat → tasks pl !! k = Some p → queued p = false →
       ∃ q, tasks pl !! j = Some q ∧ queued q = false)
  ∧ NoDup (completed pl)
  ∧ (∀ i, i ∈ completed pl ↔ ∃ p, tasks pl !! i = Some p ∧ final p = true).

(** A property of the pool of a batch made of a property [G] of what
    the workers share and a property [T] of every worker. *)
Definition holds
    (G : state → Prop) (T : nat → string → option Z → pc → state → Prop)
    (titles_years : list (string * option Z)) (pl : pool) : Prop :=
  G (shared pl)
  ∧ ∀ j title year p,
      titles_years !! j = Some (title, year) → tasks pl !! j = Some p →
      T j title year p (shared pl).

(** What the [as_completed] loop appends to [items] and to
    [no_match_items] when it goes through [order]. *)
Definition reported_items (ts : list pc) (order : list nat) : list payload :=
  omap (λ i, match ts !! i with
             | Some (Finished (OK p)) => Some p
             | _ => None
             end) order.

Definition reported_no_match (ts : list pc) (order : list nat)
  : list (string * option Z) :=
  omap (λ i, match ts !! i with
             | Some (Finished (NO_MATCH title year)) => Some (title, year)
             | _ => None
             end) order.


(** A worker at [p] did not miss its lookup: it is before it, or past
    a hit. *)
Definition past_lookup_hit (p : pc) : Prop :=
  match p with
  | AtSearch | AtStoreNone | AtStore _ _ => False
  | _ => True
  end.


(** The request a worker at [p] sends with its next step, if any. *)
Definition step_calls (tid : nat) (title : string) (p : pc) : list (nat * call) :=
  match p with
  | AtSearch => [(tid, SearchCall title)]
  | AtTitleGet media_type tmdb_id => [(tid, TitleCall media_type tmdb_id)]
  | _ => []
  end.

(** The requests sent between the states [st] and [st']. *)
Definition calls_since (st st' : state) : list (nat * call) :=
  drop (length (calls st)) (calls st').


(** A worker about to write an entry writes the one its search resolved. *)
Definition stores_resolved (title : string) (year : option Z) (p : pc) : Prop :=
  match p with
  | AtStoreNone => resolved_entry title year = Some none_entry
  | AtStore media_type tmdb_id =>
      resolved_entry title year
      = Some {| e_media_type := media_type; e_id := Some tmdb_id |}
  | _ => True
  end.












(** A worker past its lookup, and not at a store, has an entry under
    its key. *)
Definition has_entry (title : string) (year : option Z) (p : pc) (s : state) : Prop :=
  match p with
  | AtTitleLoad _ _ | AtTitleGet _ _ | AtTitleSave _ _ _ | Finished _ =>
      is_Some (search_cache s !! _search_cache_key title year)
  | _ => True
  end.

(** The search requests, the record requests, and those of one worker. *)
Definition is_search (c : call) : bool :=
  match c with
  | SearchCall _ => true
  | TitleCall _ _ => false
  end.


Definition searches_by (tid : nat) (l : list (nat * call)) : list (nat * call) :=
  List.filter (λ x, (x.1 =? tid)%nat && is_search x.2) l.

Definition title_requests_by (tid : nat) (l : list (nat * call)) : list (nat * call) :=
  List.filter (λ x, (x.1 =? tid)%nat && negb (is_search x.2)) l.

(** A worker at [p] has not searched yet; has not requested a record yet. *)
Definition before_search (p : pc) : bool :=
  match p with
  | Queued | AtLookup | AtSearch => true
  | _ => false
  end.

Definition before_title_get (p : pc) : bool :=
  match p with
  | AtTitleSave _ _ _ | Finished _ | Crashed _ => false
  | _ => true
  end.

(** With one pool thread: a worker has left the queue only if the
    workers submitted before it are done. *)
Definition serial (pl : pool) : Prop :=
  ∀ j k pj pk,
    (j < k)%nat → tasks pl !! j = Some pj → tasks pl !! k = Some pk →
    final pj = true ∨ queued pk = true.


(** ** Notions used by the further properties *)

(** The name of the file of a record under [.cache/titles], as line 55
    formats it: [f"{safe_type}_{tmdb_id}.json"]. *)
Definition title_file_name (media_type : string) (tmdb_id : Z) : string :=
  let safe_type : string := if decide (media_type = "tv"%string) then "tv" else "movie" in
  safe_type +:+ "_" +:+ pretty tmdb_id +:+ ".json".

(** The requests a worker at [p] can still send. *)
Definition requests_left (p : pc) : nat :=
  match p with
  | Queued | AtLookup | AtSearch => 2
  | AtStore _ _ | AtTitleLoad _ _ | AtTitleGet _ _ => 1
  | _ => 0
  end.

(** A worker at [p] is busy with a record only if it is one of a movie
    or a series with a non-zero identifier; it requests or saves it only
    if the record cache had no file for it when the batch started. *)
Definition guarded (st : state) (p : pc) : Prop :=
  match p with
  | AtTitleLoad media_type tmdb_id =>
      (media_type = "movie"%string ∨ media_type = "tv"%string) ∧ tmdb_id ≠ 0
  | AtTitleGet media_type tmdb_id | AtTitleSave media_type tmdb_id _ =>
      (media_type = "movie"%string ∨ media_type = "tv"%string) ∧ tmdb_id ≠ 0
      ∧ _load_title_from_cache media_type tmdb_id st = None
  | _ => True
  end.

(** Where a worker ends, from what [worker] returned or raised. *)
Definition done_with (r : result outcome) : pc :=
  match r with
  | Ok r => Finished r
  | Raise e => Crashed e
  end.

(** The calls [worker(title, year)] for the queries of a list, made one
    after the other in the order of the list, the first as worker [tid]
    and each from the state the call before left, whether it returned or
    raised: what the calls returned or raised, and the last state. *)
Fixpoint run_in_order (tid : nat) (titles_years : list (string * option Z)) (st : state)
  : list (result outcome) * state :=
  match titles_years with
  | [] => ([], st)
  | (title, year) :: rest =>
      let run := worker title year tid st in
      let runs := run_in_order (S tid) rest run.2 in
      (run.1 :: runs.1, runs.2)
  end.

(** A record file is one the batch found when it started, or holds
    what the remote catalog answers for a movie or a series, with the
    two helper keys. *)
Definition file_from (st : state) (path : string * Z) (record : payload) : Prop :=
  title_files st !! path = Some record
  ∨ ∃ media_type tmdb_id raw,
      (media_type = "movie"%string ∨ media_type = "tv"%string)
      ∧ path = _title_cache_path media_type tmdb_id
      ∧ tmdb_title read_access_token media_type tmdb_id = Some raw
      ∧ record = with_helpers raw media_type.

(** A worker about to save a record saves such a one, in a file the
    batch did not find when it started; a worker that returned a record
    returned the content of a record file. *)
Definition saves_fetched (st : state) (p : pc) (s : state) : Prop :=
  match p with
  | AtTitleSave media_type tmdb_id record =>
      title_files st !! _title_cache_path media_type tmdb_id = None
      ∧ file_from st (_title_cache_path media_type tmdb_id) record
  | Finished (OK record) => ∃ path, title_files s !! path = Some record
  | _ => True
  end.


(** * Properties *)

(** ** Facts about strings *)

#[local] Arguments String.append !_ _ / : simpl nomatch.





Lemma pretty_N_go_nonempty x s : s ≠ ""%string → pretty_N_go x s ≠ ""%string.
Proof.
  revert s. induction (N.lt_wf_0 x) as [x _ IH]; intros s Hs.
  assert (x = 0 ∨ 0 < x)%N as [->|?] by lia.
  - by rewrite pretty_N_go_0.
  - rewrite pretty_N_go_step by done. apply IH; [by apply N.div_lt|done].
Qed.

Lemma pretty_N_nonempty (x : N) : pretty x ≠ ""%string.
Proof.
  unfold pretty, pretty_N. case_decide; [done|].
  rewrite pretty_N_go_step by lia. by apply pretty_N_go_nonempty.
Qed.


(** The decimal form of an integer is not empty and has no bar. *)
Lemma pretty_Z_nonempty (z : Z) : pretty z ≠ ""%string.
Proof.
  destruct z as [|p|p]; unfold pretty, pretty_Z; [done| |done].
  apply (pretty_N_nonempty (Npos p)).
Qed.



Lemma year_text_inj y1 y2 : year_text y1 = year_text y2 → y1 = y2.
Proof.
  destruct y1 as [a|], y2 as [b|]; simpl; intros H.
  - f_equal. by apply (inj pretty).
  - by destruct (pretty_Z_nonempty a).
  - by destruct (pretty_Z_nonempty b).
  - done.
Qed.














(** ** The selection policy *)







(** ** Runtime normalisation *)

Lemma first_positive_first pre x z post :
  Forall not_positive pre → as_int x = Some z → 0 < z →
  first_positive (pre ++ x :: post) = z.
Proof.
  intros Hpre Hx Hz. induction Hpre as [|v pre Hv _ IH]; simpl.
  - rewrite Hx. by rewrite (proj2 (Z.ltb_lt 0 z)).
  - unfold not_positive in Hv. destruct (as_int v) as [n|]; [|done].
    by rewrite (proj2 (Z.ltb_ge 0 n)).
Qed.

Lemma first_positive_none rts : Forall not_positive rts → first_positive rts = 0.
Proof.
  induction 1 as [|v rts Hv _ IH]; simpl; [done|].
  unfold not_positive in Hv. destruct (as_int v) as [n|]; [|done].
  by rewrite (proj2 (Z.ltb_ge 0 n)).
Qed.

(** C6 *)
Theorem normalized_runtime_minutes_spec :
  (∀ p z,
     as_int (py_get p "runtime") = Some z → 0 < z →
     _normalized_runtime_minutes p "movie" = z)
  ∧ (∀ p, not_positive (py_get p "runtime") →
          _normalized_runtime_minutes p "movie" = 0)
  ∧ (∀ p, p !! "runtime"%string = None → _normalized_runtime_minutes p "movie" = 0)
  ∧ (∀ p media_type pre x z post,
       media_type ≠ "movie"%string →
       p !! "episode_run_time"%string = Some (PList (pre ++ x :: post)) →
       Forall not_positive pre → as_int x = Some z → 0 < z →
       _normalized_runtime_minutes p media_type = z)
  ∧ (∀ p media_type rts,
       media_type ≠ "movie"%string →
       p !! "episode_run_time"%string = Some (PList rts) →
       Forall not_positive rts →
       _normalized_runtime_minutes p media_type = 0)
  ∧ (∀ p media_type,
       media_type ≠ "movie"%string →
       p !! "episode_run_time"%string = None →
       _normalized_runtime_minutes p media_type = 0)
  ∧ _normalized_runtime_minutes
      (<["episode_run_time"%string := PList [PInt 0; PInt 0; PInt 45; PInt 30]]> ∅) "tv" = 45
  ∧ _normalized_runtime_minutes (<["runtime"%string := PInt (-5)]> ∅) "movie" = 0
  ∧ _normalized_runtime_minutes ∅ "movie" = 0.
Proof using.
  clear.
  split_and!; try reflexivity.
  - intros p z Hrt Hz. unfold _normalized_runtime_minutes.
    rewrite decide_True by done. rewrite Hrt. by rewrite (proj2 (Z.ltb_lt 0 z)).
  - intros p Hrt. unfold _normalized_runtime_minutes, not_positive in *.
    rewrite decide_True by done.
    destruct (as_int (py_get p "runtime")) as [n|]; [|done].
    by rewrite (proj2 (Z.ltb_ge 0 n)).
  - intros p Hrt. unfold _normalized_runtime_minutes, py_get.
    rewrite decide_True by done. by rewrite Hrt.
  - intros p media_type pre x z post Hmt Hp Hpre Hx Hz.
    unfold _normalized_runtime_minutes, py_get, py_or.
    rewrite decide_False by done. rewrite Hp. simpl.
    rewrite <- (first_positive_first pre x z post Hpre Hx Hz).
    by destruct pre.
  - intros p media_type rts Hmt Hp Hrts.
    unfold _normalized_runtime_minutes, py_get, py_or.
    rewrite decide_False by done. rewrite Hp. simpl.
    destruct rts; [done|]. by apply first_positive_none.
  - intros p media_type Hmt Hp.
    unfold _normalized_runtime_minutes, py_get, py_or.
    rewrite decide_False by done. by rewrite Hp.
Qed.

Lemma normalized_runtime_minutes_witness :
  _normalized_runtime_minutes
    (<["episode_run_time"%string := PList [PInt 0; PStr "n/a"; PBool false; PInt 52; PInt 48]]> ∅)
    "tv" = 52.
Proof.
  apply (proj1 (proj2 (proj2 (proj2 normalized_runtime_minutes_spec))) _ "tv"%string
           [PInt 0; PStr "n/a"; PBool false] (PInt 52) 52 [PInt 48]).
  - done.
  - reflexivity.
  - repeat constructor; unfold not_positive; simpl; lia.
  - reflexivity.
  - lia.
Defined.

(** ** The orchestrator *)

#[local] Arguments _search_cache_key : simpl never.
#[local] Arguments _title_cache_path : simpl never.

(** Unfold one step of a worker down to the accesses it is made of. *)
Ltac unfold_step :=
  unfold wstep, after_resolve, search_multi, get_search_multi, get_title, request,
    bind, ret, _load_title_from_cache, _save_title_to_cache in *;
  simpl in *.

Implicit Types (p : pc) (st s : state) (pl : pool) (i j n : nat).
Implicit Types (titles_years : list (string * option Z)).

(** *** One worker *)

Lemma wstep_final i title year p st :
  final p = true → wstep i title year p st = (p, st).
Proof. by destruct p. Qed.

Lemma after_resolve_not_queued title year media_type tmdb_id :
  queued (after_resolve title year media_type tmdb_id) = false.
Proof. unfold after_resolve. by destruct (usable _ _). Qed.

Lemma after_resolve_steps_left title year media_type tmdb_id :
  (steps_left (after_resolve title year media_type tmdb_id) ≤ 3)%nat.
Proof. unfold after_resolve. destruct (usable _ _); simpl; lia. Qed.

Lemma wstep_not_queued i title year p st :
  final p = false → queued (wstep i title year p st).1 = false.
Proof.
  destruct p; simpl; try done; intros _.
  - destruct (search_cache st !! _); [apply after_resolve_not_queued|done].
  - unfold search_multi, get_search_multi, request, bind, ret.
    destruct (tmdb_search_multi read_access_token title); simpl; [|done].
    by destruct (_pick_best_result _ _) as [[??]|].
  - apply after_resolve_not_queued.
  - unfold _load_title_from_cache. by destruct (title_files st !! _).
  - unfold get_title, request. by destruct (tmdb_title read_access_token media_type tmdb_id).
Qed.

Lemma wstep_progress i title year p st :
  final p = false → (steps_left (wstep i title year p st).1 < steps_left p)%nat.
Proof.
  destruct p; simpl; try done; intros _; try lia.
  - destruct (search_cache st !! _); simpl; [|lia].
    pose proof (after_resolve_steps_left title year (e_media_type e) (default 0 (e_id e))).
    lia.
  - unfold search_multi, get_search_multi, request, bind, ret.
    destruct (tmdb_search_multi read_access_token title); simpl; [|lia].
    destruct (_pick_best_result _ _) as [[??]|]; simpl; lia.
  - pose proof (after_resolve_steps_left title year media_type tmdb_id). lia.
  - unfold _load_title_from_cache. destruct (title_files st !! _); simpl; lia.
  - unfold get_title, request.
    destruct (tmdb_title read_access_token media_type tmdb_id); simpl; lia.
Qed.

Lemma steps_left_final p : steps_left p = 0%nat → final p = true.
Proof. by destruct p. Qed.

(** *** The pool, one pick at a time *)

Lemma may_run_Some mw (ts : list pc) i :
  may_run mw ts i = true → ∃ p, ts !! i = Some p ∧ final p = false.
Proof.
  unfold may_run. destruct (ts !! i) as [p|]; [|done].
  intros [Hf _]%andb_true_iff. exists p. split; [done|].
  by apply negb_true_iff.
Qed.

(** What a pick does, when it does anything. *)
Lemma pool_step_cases mw titles_years i pl :
  length (tasks pl) = length titles_years →
  pool_step mw titles_years i pl = pl
  ∨ ∃ title year p,
      titles_years !! i = Some (title, year)
      ∧ tasks pl !! i = Some p
      ∧ final p = false
      ∧ may_run mw (tasks pl) i = true
      ∧ pool_step mw titles_years i pl
        = {| tasks := <[i := (wstep i title year p (shared pl)).1]> (tasks pl);
             shared := (wstep i title year p (shared pl)).2;
             completed :=
               if final (wstep i title year p (shared pl)).1
               then completed pl ++ [i] else completed pl |}.
Proof.
  intros Hlen. unfold pool_step.
  destruct (may_run mw (tasks pl) i) eqn:Hrun; [|by left].
  destruct (may_run_Some _ _ _ Hrun) as (p & Hp & Hf).
  destruct (titles_years !! i) as [[title year]|] eqn:Hq.
  - right. exists title, year, p. rewrite Hp.
    by destruct (wstep i title year p (shared pl)).
  - by left.
Qed.

Lemma iter_ind {A} (P : A → Prop) (f : A → A) (n : nat) (x : A) :
  P x → (∀ y, P y → P (f y)) → P (Nat.iter n f x).
Proof.
  intros Hx Hf. induction n as [|n IH]; [done|].
  rewrite Nat.iter_succ. by apply Hf.
Qed.

Lemma fold_left_ind {A B} (P : A → Prop) (f : A → B → A) (l : list B) (x : A) :
  P x → (∀ y b, P y → P (f y b)) → P (fold_left f l x).
Proof.
  intros Hx Hf. revert x Hx.
  induction l as [|b l IH]; intros x Hx; [done|].
  cbn [fold_left]. by apply IH, Hf.
Qed.

Lemma run_batch_ind (P : pool → Prop) titles_years mw schedule st :
  P (submitted titles_years st) →
  (∀ i pl, P pl → P (pool_step mw titles_years i pl)) →
  P (run_batch titles_years mw schedule st).
Proof.
  intros Hinit Hstep. unfold run_batch, drain, run_schedule.
  apply fold_left_ind.
  - apply fold_left_ind; [done|]. intros pl i. apply Hstep.
  - intros pl i Hpl. unfold join_worker.
    apply iter_ind; [done|]. intros pl'. apply Hstep.
Qed.

(** *** Well-formedness *)

Lemma submitted_well_formed titles_years st :
  well_formed (length titles_years) (submitted titles_years st).
Proof.
  unfold well_formed, submitted; simpl. split_and!.
  - by rewrite length_replicate.
  - intros j k p _ [-> _]%lookup_replicate. done.
  - constructor.
  - intros i. split; [by intros ?%elem_of_nil|].
    by intros (p & [-> _]%lookup_replicate & ?).
Qed.

Lemma pool_step_well_formed mw titles_years i pl :
  well_formed (length titles_years) pl →
  well_formed (length titles_years) (pool_step mw titles_years i pl).
Proof.
  intros (Hlen & Hfifo & Hnd & Hdone).
  destruct (pool_step_cases mw titles_years i pl Hlen)
    as [->|(title & year & p & Hq & Hp & Hf & Hrun & ->)]; [done|].
  set (p' := (wstep i title year p (shared pl)).1).
  assert (queued p' = false) as Hq' by (by apply wstep_not_queued).
  assert (i < length (tasks pl))%nat as Hi by (by eapply lookup_lt_Some).
  unfold well_formed; simpl. split_and!.
  - by rewrite length_insert.
  - intros j k pk Hjk Hk Hqk.
    destruct (decide (j = i)) as [->|Hji].
    { exists p'. by rewrite list_lookup_insert_eq. }
    rewrite list_lookup_insert_ne by done.
    destruct (decide (k = i)) as [->|Hki].
    + destruct (queued p) eqn:Hqp.
      * unfold may_run in Hrun. rewrite Hp, Hf, Hqp in Hrun. simpl in Hrun.
        apply andb_true_iff in Hrun as [Hall _].
        apply Is_true_true, forallb_True in Hall.
        rewrite Forall_lookup in Hall.
        assert (is_Some (take i (tasks pl) !! j)) as [q Hq2].
        { apply lookup_lt_is_Some. rewrite length_take. lia. }
        exists q. split; [by rewrite lookup_take_lt in Hq2|].
        apply Hall in Hq2. by apply Is_true_true, negb_true_iff in Hq2.
      * by apply (Hfifo j i p).
    + rewrite list_lookup_insert_ne in Hk by done. by apply (Hfifo j k pk).
  - destruct (final p') eqn:Hf'; [|done].
    apply NoDup_app. split_and!; [done| |apply NoDup_singleton].
    intros x Hx ->%list_elem_of_singleton.
    apply Hdone in Hx as (q & Hq2 & Hfq). congruence.
  - intros k. destruct (decide (k = i)) as [->|Hki].
    + rewrite list_lookup_insert_eq by done.
      destruct (final p') eqn:Hf'.
      * split; [by exists p'|]. intros _. apply elem_of_app. right. by left.
      * split.
        -- intros (q & Hq2 & Hfq)%Hdone. congruence.
        -- intros (q & [= <-] & Hfq). congruence.
    + rewrite list_lookup_insert_ne by done.
      destruct (final p') eqn:Hf'; [|apply Hdone].
      rewrite elem_of_app, list_elem_of_singleton, Hdone.
      split; [intros [?|?]; [done|by destruct Hki]|by left].
Qed.

Lemma run_schedule_well_formed titles_years mw schedule pl :
  well_formed (length titles_years) pl →
  well_formed (length titles_years) (run_schedule mw titles_years schedule pl).
Proof.
  unfold run_schedule. revert pl.
  induction schedule as [|i schedule IH]; intros pl Hpl; simpl; [done|].
  by apply IH, pool_step_well_formed.
Qed.

Lemma run_batch_well_formed titles_years mw schedule st :
  well_formed (length titles_years) (run_batch titles_years mw schedule st).
Proof.
  apply run_batch_ind; [apply submitted_well_formed|].
  intros i pl. apply pool_step_well_formed.
Qed.

(** *** Every worker ends *)

Lemma pool_step_other mw titles_years i j pl :
  i ≠ j → tasks (pool_step mw titles_years i pl) !! j = tasks pl !! j.
Proof.
  intros Hij. unfold pool_step.
  destruct (may_run mw (tasks pl) i); [|done].
  destruct (titles_years !! i) as [[title year]|]; [|done].
  destruct (tasks pl !! i) as [p|]; [|done].
  destruct (wstep i title year p (shared pl)). simpl.
  by apply list_lookup_insert_ne.
Qed.

Lemma final_not_running p : final p = true → running p = false.
Proof. by destruct p. Qed.

Lemma queued_not_running p : queued p = true → running p = false.
Proof. by destruct p. Qed.

Lemma final_not_queued p : final p = true → queued p = false.
Proof. by destruct p. Qed.

Lemma filter_none {A} (f : A → bool) (l : list A) :
  (∀ x, x ∈ l → f x = false) → List.filter f l = [].
Proof.
  induction l as [|x l IH]; intros Hall; simpl; [done|].
  rewrite (Hall x) by left. apply IH. intros y Hy. apply Hall. by right.
Qed.

(** Once the workers submitted before [i] are done, worker [i] may run. *)
Lemma may_run_next mw n i p pl :
  (1 ≤ mw)%nat → well_formed n pl →
  (∀ j, (j < i)%nat → ∃ q, tasks pl !! j = Some q ∧ final q = true) →
  tasks pl !! i = Some p → final p = false →
  may_run mw (tasks pl) i = true.
Proof.
  intros Hmw (Hlen & Hfifo & _ & _) Hbefore Hp Hf.
  unfold may_run. rewrite Hp, Hf. simpl.
  destruct (queued p) eqn:Hq; [simpl|done].
  apply andb_true_iff. split.
  - apply Is_true_true, forallb_True, Forall_lookup.
    intros j q [Hj Hji]%lookup_take_Some.
    destruct (Hbefore j Hji) as (q' & Hq' & Hfq'). simplify_eq.
    by rewrite (final_not_queued q).
  - assert (List.filter running (tasks pl) = []) as ->; [|simpl; by apply Nat.ltb_lt].
    apply filter_none.
    intros q [k Hk]%list_elem_of_lookup.
    destruct (Nat.lt_trichotomy k i) as [Hlt|[->|Hgt]].
    + destruct (Hbefore k Hlt) as (q' & Hq' & Hfq'). simplify_eq.
      by apply final_not_running.
    + simplify_eq. by apply queued_not_running.
    + destruct (queued q) eqn:Hqq; [by apply queued_not_running|].
      destruct (Hfifo i k q Hgt Hk Hqq) as (p' & Hp' & Hqp'). congruence.
Qed.

Lemma pool_step_before mw titles_years i pl :
  (∀ j, (j < i)%nat → ∃ q, tasks pl !! j = Some q ∧ final q = true) →
  ∀ j, (j < i)%nat →
       ∃ q, tasks (pool_step mw titles_years i pl) !! j = Some q ∧ final q = true.
Proof.
  intros Hbefore j Hj. rewrite pool_step_other by lia. by apply Hbefore.
Qed.

Lemma iter_pool_step_ends mw titles_years i k :
  (1 ≤ mw)%nat →
  ∀ pl p,
    well_formed (length titles_years) pl →
    (∀ j, (j < i)%nat → ∃ q, tasks pl !! j = Some q ∧ final q = true) →
    tasks pl !! i = Some p → (steps_left p ≤ k)%nat →
    well_formed (length titles_years) (Nat.iter k (pool_step mw titles_years i) pl)
    ∧ (∀ j, (j < S i)%nat →
            ∃ q, tasks (Nat.iter k (pool_step mw titles_years i) pl) !! j = Some q
                 ∧ final q = true).
Proof.
  intros Hmw. induction k as [|k IH]; intros pl p Hwf Hbefore Hp Hk.
  - cbn [Nat.iter nat_rect]. split; [done|]. intros j Hj.
    destruct (decide (j = i)) as [->|]; [|apply Hbefore; lia].
    exists p. split; [done|]. apply steps_left_final. lia.
  - rewrite Nat.iter_succ_r.
    destruct (final p) eqn:Hf.
    + assert (pool_step mw titles_years i pl = pl) as ->.
      { unfold pool_step, may_run. by rewrite Hp, Hf. }
      apply (IH pl p); try done.
      destruct p; try done; cbn [steps_left]; lia.
    + pose proof (may_run_next mw _ i p pl Hmw Hwf Hbefore Hp Hf) as Hrun.
      destruct Hwf as (Hlen & Hwf').
      assert (is_Some (titles_years !! i)) as [[title year] Hq].
      { apply lookup_lt_is_Some. rewrite <- Hlen. by eapply lookup_lt_Some. }
      assert (pool_step mw titles_years i pl
              = {| tasks := <[i := (wstep i title year p (shared pl)).1]> (tasks pl);
                   shared := (wstep i title year p (shared pl)).2;
                   completed :=
                     if final (wstep i title year p (shared pl)).1
                     then completed pl ++ [i] else completed pl |}) as Heq.
      { unfold pool_step. rewrite Hrun, Hq, Hp.
        by destruct (wstep i title year p (shared pl)). }
      apply (IH _ (wstep i title year p (shared pl)).1).
      * apply pool_step_well_formed. by split.
      * by apply pool_step_before.
      * rewrite Heq. cbn [tasks]. apply list_lookup_insert_eq. by eapply lookup_lt_Some.
      * pose proof (wstep_progress i title year p (shared pl) Hf). lia.
Qed.

Lemma join_worker_ends mw titles_years i pl :
  (1 ≤ mw)%nat → (i < length titles_years)%nat →
  well_formed (length titles_years) pl →
  (∀ j, (j < i)%nat → ∃ q, tasks pl !! j = Some q ∧ final q = true) →
  well_formed (length titles_years) (join_worker mw titles_years pl i)
  ∧ (∀ j, (j < S i)%nat →
          ∃ q, tasks (join_worker mw titles_years pl i) !! j = Some q ∧ final q = true).
Proof.
  intros Hmw Hi Hwf Hbefore.
  assert (is_Some (tasks pl !! i)) as [p Hp].
  { apply lookup_lt_is_Some. by destruct Hwf as [-> _]. }
  unfold join_worker.
  apply (iter_pool_step_ends mw titles_years i 7 Hmw pl p); try done.
  destruct p; cbn [steps_left]; lia.
Qed.

Lemma fold_left_seq_succ {A} (f : A → nat → A) a b x :
  fold_left f (seq a (S b)) x = fold_left f (seq (S a) b) (f x a).
Proof. reflexivity. Qed.

Lemma drain_ends mw titles_years pl :
  (1 ≤ mw)%nat → well_formed (length titles_years) pl →
  well_formed (length titles_years) (drain mw titles_years pl)
  ∧ (∀ j, (j < length titles_years)%nat →
          ∃ q, tasks (drain mw titles_years pl) !! j = Some q ∧ final q = true).
Proof.
  intros Hmw Hwf. unfold drain.
  assert (∀ b a pl,
    (a + b = length titles_years)%nat →
    well_formed (length titles_years) pl →
    (∀ j, (j < a)%nat → ∃ q, tasks pl !! j = Some q ∧ final q = true) →
    well_formed (length titles_years)
      (fold_left (join_worker mw titles_years) (seq a b) pl)
    ∧ (∀ j, (j < a + b)%nat →
            ∃ q, tasks (fold_left (join_worker mw titles_years) (seq a b) pl) !! j
                 = Some q ∧ final q = true)) as Hgen.
  { induction b as [|b IH]; intros a pl0 Hab Hwf0 Hbefore.
    - split; [exact Hwf0|]. intros j Hj. apply Hbefore. lia.
    - rewrite fold_left_seq_succ.
      destruct (join_worker_ends mw titles_years a pl0 Hmw ltac:(lia) Hwf0 Hbefore)
        as [Hwf1 Hbefore1].
      destruct (IH (S a) _ ltac:(lia) Hwf1 Hbefore1) as [Hwf2 Hall].
      split; [exact Hwf2|]. intros j Hj. apply Hall. lia. }
  apply (Hgen (length titles_years) 0%nat pl); [reflexivity|exact Hwf|].
  intros j Hj. lia.
Qed.

(** With at least one pool thread, every worker of a batch is done in
    the end, and [completed] orders the whole batch. *)
Lemma run_batch_ends titles_years mw schedule st :
  (1 ≤ mw)%nat →
  (∀ j, (j < length titles_years)%nat →
        ∃ q, tasks (run_batch titles_years mw schedule st) !! j = Some q
             ∧ final q = true)
  ∧ completed (run_batch titles_years mw schedule st) ≡ₚ seq 0 (length titles_years).
Proof.
  intros Hmw.
  destruct (drain_ends mw titles_years
              (run_schedule mw titles_years schedule (submitted titles_years st)) Hmw)
    as [Hwf Hall].
  { apply run_schedule_well_formed, submitted_well_formed. }
  change (drain mw titles_years
            (run_schedule mw titles_years schedule (submitted titles_years st)))
    with (run_batch titles_years mw schedule st) in Hwf, Hall.
  split; [done|].
  destruct Hwf as (Hlen & _ & Hnd & Hdone).
  apply NoDup_Permutation; [done|apply NoDup_seq|].
  intros i. rewrite Hdone, elem_of_seq. split.
  - intros (p & Hp & _). apply lookup_lt_Some in Hp. lia.
  - intros [_ Hi]. by apply Hall.
Qed.

(** *** Invariants of a batch *)

(** A pick keeps a property of the shared state and of every worker if
    every step of a worker keeps it, for the worker that moves and for
    the others. *)
Lemma pool_step_holds
    (G : state → Prop) (T : nat → string → option Z → pc → state → Prop)
    titles_years mw i pl :
  (∀ i title year p s,
     titles_years !! i = Some (title, year) → final p = false →
     G s → T i title year p s →
     G (wstep i title year p s).2
     ∧ T i title year (wstep i title year p s).1 (wstep i title year p s).2
     ∧ ∀ j title' year' q,
         j ≠ i → titles_years !! j = Some (title', year') →
         T j title' year' q s → T j title' year' q (wstep i title year p s).2) →
  holds G T titles_years pl →
  holds G T titles_years (pool_step mw titles_years i pl).
Proof.
  intros Hstep [HGpl HTpl]. unfold pool_step.
  destruct (may_run mw (tasks pl) i) eqn:Hrun; [|done].
  destruct (titles_years !! i) as [[title year]|] eqn:Hq; [|done].
  destruct (tasks pl !! i) as [p|] eqn:Hp; [|done].
  destruct (Hstep i title year p (shared pl) Hq) as (HG' & HT' & Hothers);
    [|done|by eapply HTpl|].
  { apply may_run_Some in Hrun as (p' & Hp' & Hf). congruence. }
  destruct (wstep i title year p (shared pl)) as [p' s'].
  split; [done|]. simpl in *. intros j title' year' q Hq' Hj.
  destruct (decide (j = i)) as [->|Hji].
  - rewrite list_lookup_insert_eq in Hj by (by eapply lookup_lt_Some).
    by simplify_eq.
  - rewrite list_lookup_insert_ne in Hj by done.
    apply Hothers; [done|done|]. by apply HTpl.
Qed.

(** Such a property holds when all workers are done if it holds when
    they are submitted. *)
Lemma run_batch_holds
    (G : state → Prop) (T : nat → string → option Z → pc → state → Prop)
    titles_years mw schedule st :
  G (set_search_cache (_load_search_cache st) st) →
  (∀ j title year,
     titles_years !! j = Some (title, year) →
     T j title year Queued (set_search_cache (_load_search_cache st) st)) →
  (∀ i title year p s,
     titles_years !! i = Some (title, year) → final p = false →
     G s → T i title year p s →
     G (wstep i title year p s).2
     ∧ T i title year (wstep i title year p s).1 (wstep i title year p s).2
     ∧ ∀ j title' year' q,
         j ≠ i → titles_years !! j = Some (title', year') →
         T j title' year' q s → T j title' year' q (wstep i title year p s).2) →
  holds G T titles_years (run_batch titles_years mw schedule st).
Proof.
  intros HG HT Hstep. apply run_batch_ind.
  - split; [done|]. intros j title year p Hq [-> _]%lookup_replicate. by apply HT.
  - intros i pl. by apply pool_step_holds.
Qed.

(** *** The [as_completed] loop *)

Lemma as_completed_loop_ok ts order items no_match_items :
  (∀ i e, i ∈ order → ts !! i ≠ Some (Crashed e)) →
  as_completed_loop ts order items no_match_items
  = Ok (items ++ reported_items ts order, no_match_items ++ reported_no_match ts order).
Proof.
  revert items no_match_items.
  induction order as [|i order IH]; intros items no_match_items Hok; simpl.
  - by rewrite !app_nil_r.
  - assert (∀ i e, i ∈ order → ts !! i ≠ Some (Crashed e)) as Hok'.
    { intros j e Hj. apply Hok. by right. }
    unfold reported_items, reported_no_match. simpl.
    destruct (ts !! i) as [[| | | | | | | |[title year|p]|e]|] eqn:Hi;
      try (by apply IH).
    + rewrite IH by done. by rewrite <- app_assoc.
    + rewrite IH by done. by rewrite <- app_assoc.
    + destruct (Hok i e); [by left|done].
Qed.

Lemma as_completed_loop_raise ts order items no_match_items i :
  i ∈ order → (∃ e, ts !! i = Some (Crashed e)) →
  ∃ j e, j ∈ order ∧ ts !! j = Some (Crashed e)
         ∧ as_completed_loop ts order items no_match_items = Raise e.
Proof.
  revert items no_match_items.
  induction order as [|k order IH]; intros items no_match_items Hi Hcr;
    [by apply elem_of_nil in Hi|].
  simpl.
  assert (∀ items no_match_items,
            (∀ e, ts !! k ≠ Some (Crashed e)) →
            ∃ j e, j ∈ k :: order ∧ ts !! j = Some (Crashed e)
                   ∧ as_completed_loop ts order items no_match_items = Raise e) as Hrest.
  { intros items' no_match_items' Hk.
    apply elem_of_cons in Hi as [->|Hi]; [destruct Hcr as [e He]; by destruct (Hk e)|].
    destruct (IH items' no_match_items' Hi Hcr) as (j & e & Hj & He & ->).
    exists j, e. split_and!; [by right|done|done]. }
  destruct (ts !! k) as [[| | | | | | | |[title year|p]|e]|] eqn:Hk;
    try (by apply Hrest).
  exists k, e. split_and!; [by left|done|done].
Qed.

(** *** The record cache client *)

Lemma normalized_runtime_ignores_helper raw v media_type :
  _normalized_runtime_minutes (<["_media_type"%string := v]> raw) media_type
  = _normalized_runtime_minutes raw media_type.
Proof.
  unfold _normalized_runtime_minutes, py_get.
  by rewrite !lookup_insert_ne by done.
Qed.

(** C4 *)
Theorem title_with_credits_spec tid media_type tmdb_id st :
  (∀ cached,
     _load_title_from_cache media_type tmdb_id st = Some cached →
     title_with_credits media_type tmdb_id tid st = (Ok cached, st))
  ∧ (_load_title_from_cache media_type tmdb_id st = None →
     let st' := (title_with_credits media_type tmdb_id tid st).2 in
     calls st' = calls st ++ [(tid, TitleCall media_type tmdb_id)]
     ∧ search_cache st' = search_cache st
     ∧ search_file st' = search_file st
     ∧ match tmdb_title read_access_token media_type tmdb_id with
       | Some raw =>
           let p := with_helpers raw media_type in
           (title_with_credits media_type tmdb_id tid st).1 = Ok p
           ∧ p !! "_media_type"%string = Some (PStr media_type)
           ∧ p !! "_normalized_runtime"%string
             = Some (PInt (_normalized_runtime_minutes raw media_type))
           ∧ (∀ k, k ≠ "_media_type"%string → k ≠ "_normalized_runtime"%string →
                   p !! k = raw !! k)
           ∧ title_files st'
             = <[_title_cache_path media_type tmdb_id := p]> (title_files st)
           ∧ _load_title_from_cache media_type tmdb_id st' = Some p
       | None =>
           (title_with_credits media_type tmdb_id tid st).1 = Raise TransportError
           ∧ title_files st' = title_files st
       end).
Proof.
  unfold title_with_credits, bind, gets, get_title,
    request, modify, ret.
  split.
  - intros cached Hc. by rewrite Hc.
  - intros Hc. rewrite Hc.
    destruct (tmdb_title read_access_token media_type tmdb_id) as [raw|]; simpl.
    + split_and!; try done.
      * unfold with_helpers. rewrite lookup_insert_ne by done.
        by rewrite lookup_insert_eq.
      * unfold with_helpers. rewrite lookup_insert_eq.
        by rewrite normalized_runtime_ignores_helper.
      * intros k Hk1 Hk2. unfold with_helpers.
        by rewrite !lookup_insert_ne by done.
      * unfold _load_title_from_cache. simpl. by rewrite lookup_insert_eq.
    + done.
Qed.

(** *** A worker alone *)

(** The thread, run without interruption from its first access to its
    end, is [worker]. *)
Lemma worker_alone tid title year st :
  Nat.iter 6 (λ c, wstep tid title year c.1 c.2) (AtLookup, st)
  = match worker title year tid st with
    | (Ok r, st') => (Finished r, st')
    | (Raise e, st') => (Crashed e, st')
    end.
Proof.
  unfold worker, fetch_resolved, after_resolve,
    title_with_credits, search_multi,
    get_search_multi, get_title, request, bind, gets, modify, ret.
  simpl.
  destruct (search_cache st !! _search_cache_key title year) as [cached|] eqn:Hc; simpl.
  - unfold after_resolve.
    destruct (usable (e_media_type cached) (default 0 (e_id cached))) as [mt|]; simpl; [|done].
    unfold _load_title_from_cache.
    destruct (title_files st !! _title_cache_path mt (default 0 (e_id cached))); simpl; [done|].
    unfold get_title, request.
    by destruct (tmdb_title read_access_token mt (default 0 (e_id cached))).
  - unfold search_multi, get_search_multi, request, bind, ret.
    destruct (tmdb_search_multi read_access_token title) as [results|]; simpl; [|done].
    destruct (_pick_best_result (List.filter movie_or_tv results) year)
      as [[media_type tmdb_id]|]; simpl; [|done].
    unfold after_resolve.
    destruct (usable media_type tmdb_id) as [mt|]; simpl; [|done].
    unfold _load_title_from_cache. simpl.
    destruct (title_files st !! _title_cache_path mt tmdb_id); simpl; [done|].
    unfold get_title, request.
    by destruct (tmdb_title read_access_token mt tmdb_id).
Qed.

(** *** What a step changes *)

Lemma wstep_calls tid title year p s :
  calls (wstep tid title year p s).2 = calls s ++ step_calls tid title p.
Proof.
  destruct p; unfold_step; repeat case_match; simplify_eq/=;
    by rewrite ?app_nil_r.
Qed.

Lemma wstep_search_file tid title year p s :
  search_file (wstep tid title year p s).2 = search_file s.
Proof. destruct p; unfold_step; repeat case_match; by simplify_eq/=. Qed.

(** A worker raises at a failed request, and nowhere else. *)
Lemma wstep_crashed tid title year p s e :
  final p = false → (wstep tid title year p s).1 = Crashed e →
  e = TransportError
  ∧ ((p = AtSearch ∧ tmdb_search_multi read_access_token title = None)
     ∨ (∃ media_type tmdb_id,
          p = AtTitleGet media_type tmdb_id
          ∧ tmdb_title read_access_token media_type tmdb_id = None)).
Proof.
  destruct p; unfold_step; intros Hf Hc; repeat case_match; simplify_eq/=;
    (split; [done|]); [by left|right; eauto].
Qed.

Lemma run_batch_search_file titles_years mw schedule st :
  holds (λ s, search_file s = search_file st)
        (λ _ _ _ p _, ∀ e, p = Crashed e → e = TransportError)
        titles_years (run_batch titles_years mw schedule st).
Proof.
  apply run_batch_holds; [done|done|].
  intros i title year p s Hq Hf HG HT. split_and!.
  - by rewrite wstep_search_file.
  - intros e He. by destruct (wstep_crashed i title year p s e Hf He).
  - done.
Qed.

Lemma calls_since_app st s new :
  calls s = calls st ++ new → calls_since st s = new.
Proof. intros H. unfold calls_since. rewrite H. by rewrite drop_app_length. Qed.


(** The two ways a batch ends: a worker raised, and so does the batch,
    which then neither returns nor saves; or none did, and the batch
    saves the search cache and returns what the loop collected. *)
Lemma resolve_cases titles_years mw schedule st :
  (1 ≤ mw)%nat →
  let pl := run_batch titles_years mw schedule st in
  ((∃ i e, tasks pl !! i = Some (Crashed e))
   ∧ resolve_and_fetch_credits_parallel titles_years mw schedule st
     = (Raise TransportError, shared pl))
  ∨ ((∀ i e, tasks pl !! i ≠ Some (Crashed e))
     ∧ resolve_and_fetch_credits_parallel titles_years mw schedule st
       = (Ok (reported_items (tasks pl) (completed pl),
              reported_no_match (tasks pl) (completed pl)),
          _save_search_cache (search_cache (shared pl)) (shared pl))).
Proof.
  intros Hmw pl.
  destruct (run_batch_search_file titles_years mw schedule st) as [_ Hexn].
  destruct (run_batch_ends titles_years mw schedule st Hmw) as [Hall Hperm].
  destruct (run_batch_well_formed titles_years mw schedule st) as [Hlen _].
  fold pl in Hexn, Hall, Hperm, Hlen.
  unfold resolve_and_fetch_credits_parallel.
  destruct (Nat.eqb_spec mw 0) as [->|_]; [lia|].
  fold pl.
  destruct (decide (Exists (λ p, crashed p = true) (tasks pl))) as [Hex|Hno].
  - left. apply Exists_exists in Hex as (p & [i Hi]%list_elem_of_lookup & Hp).
    destruct p as [| | | | | | | | |e]; try done.
    split; [by exists i, e|].
    destruct (as_completed_loop_raise (tasks pl) (completed pl) [] [] i)
      as (j & e' & Hj & He' & ->); [|by exists e|].
    { rewrite Hperm. apply elem_of_seq. apply lookup_lt_Some in Hi. lia. }
    assert (is_Some (titles_years !! j)) as [[title' year'] Hq'].
    { apply lookup_lt_is_Some. rewrite <- Hlen. by eapply lookup_lt_Some. }
    by rewrite (Hexn j title' year' _ Hq' He' e').
  - right.
    assert (∀ i e, tasks pl !! i ≠ Some (Crashed e)) as Hno'.
    { intros i e Hi. apply Hno, Exists_exists. exists (Crashed e).
      split; [by eapply list_elem_of_lookup_2|done]. }
    split; [done|].
    rewrite as_completed_loop_ok; [done|]. intros i e _. apply Hno'.
Qed.


(** *** Queries whose key is in the loaded search cache *)

(** Workers write an entry only after a lookup that missed: an entry of
    the loaded cache stays as it is for the whole batch, and no worker
    with its key ever searches. *)
Lemma cached_entry_kept titles_years mw schedule st k cached :
  _load_search_cache st !! k = Some cached →
  holds (λ s, search_cache s !! k = Some cached)
        (λ _ title year p _, _search_cache_key title year = k → past_lookup_hit p)
        titles_years (run_batch titles_years mw schedule st).
Proof.
  intros Hk. apply run_batch_holds; [done|done|].
  intros i title year p s Hq Hf HG HT.
  destruct (decide (_search_cache_key title year = k)) as [Hkey|Hkey].
  - specialize (HT Hkey). subst k.
    destruct p; unfold_step; try done; repeat case_match; simplify_eq/=; done.
  - destruct p; unfold_step; repeat case_match; simplify_eq/=;
      rewrite ?lookup_insert_ne by done; done.
Qed.





(** Every request of a batch is sent by one of its workers. *)
Lemma run_batch_calls_tid titles_years mw schedule st :
  ∀ j c, (j, c) ∈ calls_since st (shared (run_batch titles_years mw schedule st)) →
         is_Some (titles_years !! j).
Proof.
  assert (holds (λ s, ∃ new, calls s = calls st ++ new
                             ∧ ∀ j c, (j, c) ∈ new → is_Some (titles_years !! j))
            (λ _ _ _ _ _, True)
            titles_years (run_batch titles_years mw schedule st))
    as [(new & Hnew & Htid) _].
  { apply run_batch_holds; [|done|].
    - exists []. rewrite app_nil_r. split; [done|]. intros j c Hc.
      by apply elem_of_nil in Hc.
    - intros i title year p s Hq Hf (new & Hnew & Htid) _. split; [|done].
      exists (new ++ step_calls i title p).
      rewrite wstep_calls, Hnew, app_assoc. split; [done|].
      intros j c [Hc|Hc]%elem_of_app; [by eapply Htid|].
      destruct p; simpl in Hc; try (by apply elem_of_nil in Hc);
        apply list_elem_of_singleton in Hc; by simplify_eq. }
  by rewrite (calls_since_app _ _ _ Hnew).
Qed.


Lemma usable_Some media_type tmdb_id mt :
  usable media_type tmdb_id = Some mt
  ↔ media_type = Some mt ∧ (mt = "movie"%string ∨ mt = "tv"%string) ∧ tmdb_id ≠ 0.
Proof.
  unfold usable. destruct (Z.eqb_spec tmdb_id 0) as [->|Hz]; [naive_solver|].
  destruct media_type as [mt'|]; [|naive_solver].
  case_bool_decide; naive_solver.
Qed.

(** [worker] on a cached entry, run alone. *)
Lemma worker_cached tid title year s cached :
  search_cache s !! _search_cache_key title year = Some cached →
  worker title year tid s
  = match usable (e_media_type cached) (default 0 (e_id cached)) with
    | None => (Ok (NO_MATCH title year), s)
    | Some media_type =>
        match title_with_credits media_type (default 0 (e_id cached)) tid s with
        | (Ok record, s') => (Ok (OK record), s')
        | (Raise e, s') => (Raise e, s')
        end
    end.
Proof.
  intros Hc. unfold worker, fetch_resolved, bind, gets, ret.
  rewrite Hc. by destruct (usable _ _).
Qed.





(** *** The entries of the search cache *)

Lemma first_year_match_from results y media_type tmdb_id :
  first_year_match results y = Some (media_type, tmdb_id) →
  ∃ c, c ∈ results ∧ media_type = c_media_type c ∧ tmdb_id = c_id c.
Proof.
  induction results as [|r rest IH]; simpl; [done|].
  destruct (year_matches y r).
  - intros [= <- <-]. exists r. split; [by left|done].
  - intros (c & Hc & Heq)%IH. exists c. split; [by right|done].
Qed.

(** What [_pick_best_result] picks comes from a candidate. *)
Lemma pick_best_from results year media_type tmdb_id :
  _pick_best_result results year = Some (media_type, tmdb_id) →
  ∃ c, c ∈ results ∧ tmdb_id = c_id c
       ∧ (media_type = c_media_type c
          ∨ media_type = Some (default "movie"%string (c_media_type c))).
Proof.
  unfold _pick_best_result. destruct results as [|top rest]; [done|].
  assert (∃ c, c ∈ top :: rest ∧ c_id top = c_id c
               ∧ (Some (default "movie"%string (c_media_type top)) = c_media_type c
                  ∨ Some (default "movie"%string (c_media_type top))
                    = Some (default "movie"%string (c_media_type c)))) as Htop.
  { exists top. split; [by left|]. split; [done|by right]. }
  destruct year as [y|]; [|by intros [= <- <-]].
  destruct (first_year_match (top :: rest) y) as [[mt i]|] eqn:Hm.
  - intros [= <- <-]. apply first_year_match_from in Hm as (c & Hc & -> & ->).
    exists c. split; [done|]. split; [done|by left].
  - by intros [= <- <-].
Qed.


(** Every entry of the dictionary of a batch was loaded or resolved by
    a worker of the batch. *)
Lemma run_batch_entries titles_years mw schedule st :
  holds (λ s, ∀ k e,
           search_cache s !! k = Some e →
           _load_search_cache st !! k = Some e
           ∨ ∃ j title year,
               titles_years !! j = Some (title, year)
               ∧ _search_cache_key title year = k
               ∧ resolved_entry title year = Some e)
        (λ _ title year p _, stores_resolved title year p)
        titles_years (run_batch titles_years mw schedule st).
Proof.
  apply run_batch_holds.
  - intros k e Hk. by left.
  - done.
  - intros i title year p s Hq Hf HG HT. split_and!; [| |done].
    + intros k e.
      destruct p; unfold_step; repeat case_match; simplify_eq/=; try apply HG.
      all: destruct (decide (_search_cache_key title year = k)) as [<-|Hne];
        [rewrite lookup_insert_eq; intros [= <-]; right; by exists i, title, year
        |rewrite lookup_insert_ne by done; apply HG].
    + destruct p; try done;
        try (unfold_step; repeat case_match; by simplify_eq/=).
      unfold_step. unfold stores_resolved, resolved_entry.
      destruct (tmdb_search_multi read_access_token title) as [results|]; [|done].
      simpl.
      by destruct (_pick_best_result (List.filter movie_or_tv results) year)
        as [[media_type tmdb_id]|].
Qed.




(** *** A first run, then a second *)

Lemma title_cache_path_movie_tv media_type tmdb_id :
  media_type = "movie"%string ∨ media_type = "tv"%string →
  _title_cache_path media_type tmdb_id = (media_type, tmdb_id).
Proof. by intros [-> | ->]. Qed.


Lemma wstep_search_cache_mono tid title year p s k :
  is_Some (search_cache s !! k) →
  is_Some (search_cache (wstep tid title year p s).2 !! k).
Proof.
  intros Hk. destruct p; unfold_step; repeat case_match; simplify_eq/=;
    try done; by apply lookup_insert_is_Some'; right.
Qed.


Lemma usable_none_entry : usable (e_media_type none_entry) (default 0 (e_id none_entry)) = None.
Proof. done. Qed.












Lemma run_batch_has_entry titles_years mw schedule st :
  holds (λ _, True) (λ _ title year p s, has_entry title year p s)
        titles_years (run_batch titles_years mw schedule st).
Proof.
  apply run_batch_holds; [done|done|].
  intros i title year p s Hq Hf _ HT. split_and!; [done| |].
  - destruct p; unfold_step; repeat case_match; simplify_eq/=; try done;
      try (by rewrite lookup_insert_eq).
    all: by match goal with H : _ !! _ = Some _ |- _ => rewrite H end.
  - intros j title' year' q _ _ Hq'.
    pose proof (wstep_search_cache_mono i title year p s
                  (_search_cache_key title' year')) as Hmono.
    destruct q; simpl in *; try done; by apply Hmono.
Qed.





(** *** How many requests a worker sends *)

Lemma calls_since_step st tid title year p s :
  (length (calls st) ≤ length (calls s))%nat →
  calls_since st (wstep tid title year p s).2
  = calls_since st s ++ step_calls tid title p.
Proof.
  intros Hle. unfold calls_since. rewrite wstep_calls. by apply drop_app_le.
Qed.

Lemma searches_by_app tid l l' :
  searches_by tid (l ++ l') = searches_by tid l ++ searches_by tid l'.
Proof. apply List.filter_app. Qed.

Lemma title_requests_by_app tid l l' :
  title_requests_by tid (l ++ l') = title_requests_by tid l ++ title_requests_by tid l'.
Proof. apply List.filter_app. Qed.

Lemma searches_by_step_other tid i title p :
  i ≠ tid → searches_by tid (step_calls i title p) = [].
Proof.
  intros Hne. destruct p; try done; unfold searches_by; simpl;
    by rewrite (proj2 (Nat.eqb_neq i tid)).
Qed.

Lemma title_requests_by_step_other tid i title p :
  i ≠ tid → title_requests_by tid (step_calls i title p) = [].
Proof.
  intros Hne. destruct p; try done; unfold title_requests_by; simpl;
    by rewrite (proj2 (Nat.eqb_neq i tid)).
Qed.

Lemma searches_by_step tid title p :
  (length (searches_by tid (step_calls tid title p)) ≤ 1)%nat
  ∧ (before_search p = false → searches_by tid (step_calls tid title p) = [])
  ∧ ∀ c, (tid, c) ∈ searches_by tid (step_calls tid title p) → c = SearchCall title.
Proof.
  unfold searches_by.
  destruct p; simpl; rewrite ?Nat.eqb_refl; simpl; split_and!; try done; try lia;
    intros c Hc; try (by apply elem_of_nil in Hc).
  apply list_elem_of_singleton in Hc. by injection Hc.
Qed.

Lemma title_requests_by_step tid title p :
  (length (title_requests_by tid (step_calls tid title p)) ≤ 1)%nat
  ∧ (before_title_get p = false → title_requests_by tid (step_calls tid title p) = []).
Proof.
  unfold title_requests_by.
  destruct p; simpl; rewrite ?Nat.eqb_refl; simpl; split_and!; try done; lia.
Qed.

Lemma wstep_before_search tid title year p s :
  before_search (wstep tid title year p s).1 = true →
  before_search p = true ∧ searches_by tid (step_calls tid title p) = [].
Proof.
  unfold searches_by.
  destruct p; cbn [step_calls List.filter fst snd is_search negb before_search];
    rewrite ?Nat.eqb_refl; cbn [andb]; try done;
    unfold_step; repeat case_match; by simplify_eq/=.
Qed.

Lemma wstep_before_title_get tid title year p s :
  before_title_get (wstep tid title year p s).1 = true →
  before_title_get p = true ∧ title_requests_by tid (step_calls tid title p) = [].
Proof.
  unfold title_requests_by.
  destruct p; cbn [step_calls List.filter fst snd is_search negb before_title_get];
    rewrite ?Nat.eqb_refl; cbn [andb]; try done;
    unfold_step; repeat case_match; by simplify_eq/=.
Qed.

(** Each worker sends at most one search request and at most one
    record request; none before it gets there. *)
Lemma run_batch_requests titles_years mw schedule st :
  holds (λ s, (length (calls st) ≤ length (calls s))%nat)
        (λ i title _ p s,
           (length (searches_by i (calls_since st s)) ≤ 1)%nat
           ∧ (before_search p = true → searches_by i (calls_since st s) = [])
           ∧ (length (title_requests_by i (calls_since st s)) ≤ 1)%nat
           ∧ (before_title_get p = true → title_requests_by i (calls_since st s) = [])
           ∧ ∀ c, (i, c) ∈ searches_by i (calls_since st s) → c = SearchCall title)
        titles_years (run_batch titles_years mw schedule st).
Proof.
  assert (calls_since st (set_search_cache (_load_search_cache st) st) = []) as Hnil.
  { unfold calls_since. simpl. by rewrite drop_all. }
  apply run_batch_holds.
  - done.
  - intros j title year _. rewrite Hnil. simpl. split_and!; try done; try lia.
    intros c Hc. by apply elem_of_nil in Hc.
  - intros i title year p s Hq Hf Hle (Hs1 & Hs0 & Ht1 & Ht0 & Hmine).
    destruct (searches_by_step i title p) as (Hss1 & Hss0 & Hssmine).
    destruct (title_requests_by_step i title p) as (Hts1 & Hts0).
    split; [|split; [split_and!|]].
    + rewrite wstep_calls, length_app. lia.
    + rewrite calls_since_step, searches_by_app, length_app by done.
      destruct (before_search p) eqn:Hb.
      * rewrite Hs0 by done. simpl. lia.
      * rewrite Hss0 by done. simpl. lia.
    + intros [Hb Hnil']%wstep_before_search.
      rewrite calls_since_step, searches_by_app by done.
      by rewrite Hs0, Hnil'.
    + rewrite calls_since_step, title_requests_by_app, length_app by done.
      destruct (before_title_get p) eqn:Hb.
      * rewrite Ht0 by done. simpl. lia.
      * rewrite Hts0 by done. simpl. lia.
    + intros [Hb Hnil']%wstep_before_title_get.
      rewrite calls_since_step, title_requests_by_app by done.
      by rewrite Ht0, Hnil'.
    + intros c. rewrite calls_since_step, searches_by_app by done.
      intros [Hc|Hc]%elem_of_app; [by apply Hmine|by apply Hssmine].
    + intros j title' year' q Hji Hq' (Hs1' & Hs0' & Ht1' & Ht0' & Hmine').
      rewrite calls_since_step by done.
      rewrite searches_by_app, title_requests_by_app.
      rewrite searches_by_step_other, title_requests_by_step_other by done.
      by rewrite !app_nil_r.
Qed.

(** *** One pool thread *)

Lemma not_queued_not_running_final p :
  queued p = false → running p = false → final p = true.
Proof. by destruct p. Qed.

Lemma may_run_one_queued (ts : list pc) i p j q :
  may_run 1 ts i = true → ts !! i = Some p → queued p = true →
  (j < i)%nat → ts !! j = Some q → final q = true.
Proof.
  unfold may_run. intros Hrun Hp Hqp Hji Hq. rewrite Hp, Hqp in Hrun.
  apply andb_true_iff in Hrun as [_ Hrun]. simpl in Hrun.
  apply andb_true_iff in Hrun as [Hall Hcount].
  apply not_queued_not_running_final.
  - apply Is_true_true, forallb_True in Hall. rewrite Forall_lookup in Hall.
    specialize (Hall j q). rewrite lookup_take_lt in Hall by done.
    apply Hall in Hq. by apply Is_true_true, negb_true_iff in Hq.
  - apply Nat.ltb_lt in Hcount.
    destruct (running q) eqn:Hr; [|done].
    assert (q ∈ List.filter running ts) as Hin.
    { apply list_elem_of_In, List.filter_In. split; [|done].
      apply list_elem_of_In. by eapply list_elem_of_lookup_2. }
    destruct (List.filter running ts); [by apply elem_of_nil in Hin|simpl in Hcount; lia].
Qed.

(** With one pool thread the workers run one after the other, in the
    order of submission. *)
Lemma pool_step_serial titles_years i pl :
  well_formed (length titles_years) pl → serial pl →
  serial (pool_step 1 titles_years i pl).
Proof.
  intros Hwf Hserial.
  destruct (pool_step_cases 1 titles_years i pl (proj1 Hwf))
    as [->|(title & year & p & Hq & Hp & Hf & Hrun & ->)]; [done|].
  pose proof (wstep_not_queued i title year p (shared pl) Hf) as Hnq.
  assert (i < length (tasks pl))%nat as Hi by (by eapply lookup_lt_Some).
  intros j k pj pk Hjk. simpl.
  destruct (decide (j = i)) as [->|Hj]; destruct (decide (k = i)) as [->|Hk]; try lia.
  - rewrite list_lookup_insert_eq by done. rewrite list_lookup_insert_ne by done.
    intros [= <-] Hpk.
    destruct (Hserial i k p pk Hjk Hp Hpk) as [?|?]; [congruence|by right].
  - rewrite list_lookup_insert_ne by done. rewrite list_lookup_insert_eq by done.
    intros Hpj [= <-]. left.
    destruct (Hserial j i pj p Hjk Hpj Hp) as [?|Hqp]; [done|].
    by eapply may_run_one_queued.
  - rewrite !list_lookup_insert_ne by done. by apply Hserial.
Qed.

Lemma run_batch_serial titles_years schedule st :
  serial (run_batch titles_years 1 schedule st).
Proof.
  cut (well_formed (length titles_years) (run_batch titles_years 1 schedule st)
       ∧ serial (run_batch titles_years 1 schedule st)); [tauto|].
  apply run_batch_ind.
  - split; [apply submitted_well_formed|].
    intros j k pj pk _ _ [-> _]%lookup_replicate. by right.
  - intros i pl [Hwf Hserial].
    split; [by apply pool_step_well_formed|by apply pool_step_serial].
Qed.

(** *** Workers that share a key *)








(** * Further properties *)

(** ** More on the cache files *)

Lemma string_app_length (s u : string) : String.length (s +:+ u) = (String.length s + String.length u)%nat.
Proof. induction s as [|c s IH]; simpl; [done|]. by rewrite IH. Qed.

Lemma string_app_inv_tail (s1 s2 u : string) : s1 +:+ u = s2 +:+ u → s1 = s2.
Proof.
  revert s2. induction s1 as [|c s1 IH]; intros [|c' s2] H.
  - done.
  - apply (f_equal String.length) in H. simpl in H. rewrite string_app_length in H. lia.
  - apply (f_equal String.length) in H. simpl in H. rewrite string_app_length in H. lia.
  - simpl in H. injection H as -> H. by rewrite (IH s2 H).
Qed.

(** X1: two records are kept in the same file of the record cache
    exactly when they have the same identifier and the same safe type,
    every media type other than "tv" counting as "movie". *)
Theorem title_file_name_inj media_type1 tmdb_id1 media_type2 tmdb_id2 :
  title_file_name media_type1 tmdb_id1 = title_file_name media_type2 tmdb_id2
  ↔ _title_cache_path media_type1 tmdb_id1 = _title_cache_path media_type2 tmdb_id2.
Proof using.
  clear. unfold title_file_name, _title_cache_path. split.
  - intros H.
    assert (tmdb_id1 = tmdb_id2) as ->.
    { repeat case_decide; simpl in H; simplify_eq;
        match goal with
        | H : pretty _ +:+ _ = pretty _ +:+ _ |- _ =>
            apply string_app_inv_tail in H;
            by injection (year_text_inj (Some tmdb_id1) (Some tmdb_id2) H)
        end. }
    repeat case_decide; simpl in H; simplify_eq; done.
  - intros [= H ->]. by rewrite H.
Qed.



(** X5: [_pick_best_result] returns [None] for the empty list of
    candidates only; what it returns otherwise is the identifier of one
    of the candidates, with the media type of that candidate when it
    has one. On candidates that are all movies or series, as
    [search_multi] returns them, the media type is "movie" or "tv". *)
Theorem pick_best_result_total results year :
  (_pick_best_result results year = None ↔ results = [])
  ∧ (∀ media_type tmdb_id,
       _pick_best_result results year = Some (media_type, tmdb_id) →
       ∃ c, c ∈ results ∧ tmdb_id = c_id c
            ∧ (is_Some (c_media_type c) → media_type = c_media_type c))
  ∧ (∀ media_type tmdb_id,
       Forall (λ c, movie_or_tv c = true) results →
       _pick_best_result results year = Some (media_type, tmdb_id) →
       media_type = Some "movie"%string ∨ media_type = Some "tv"%string).
Proof using.
  clear.
  assert (∀ media_type tmdb_id,
            _pick_best_result results year = Some (media_type, tmdb_id) →
            ∃ c, c ∈ results ∧ tmdb_id = c_id c
                 ∧ (is_Some (c_media_type c) → media_type = c_media_type c))
    as Hfrom.
  { intros media_type tmdb_id Hpick.
    destruct (pick_best_from _ _ _ _ Hpick) as (c & Hc & -> & Hmt).
    exists c. split_and!; [done..|].
    intros [mt Hsome]. destruct Hmt as [-> | ->]; [done|]. by rewrite Hsome. }
  split_and!.
  - split; [|by intros ->].
    destruct results as [|top rest]; [done|]. unfold _pick_best_result.
    by repeat case_match.
  - exact Hfrom.
  - intros media_type tmdb_id Hall Hpick.
    destruct (Hfrom _ _ Hpick) as (c & Hc & _ & Hmt).
    rewrite Forall_forall in Hall. specialize (Hall c Hc).
    unfold movie_or_tv in Hall. apply bool_decide_eq_true in Hall.
    rewrite Hmt; [done|]. destruct Hall as [-> | ->]; by eexists.
Qed.

Lemma first_positive_from rts :
  0 ≤ first_positive rts
  ∧ (0 < first_positive rts → ∃ x, x ∈ rts ∧ as_int x = Some (first_positive rts)).
Proof.
  induction rts as [|x rts [IH1 IH2]]; simpl; [lia|].
  destruct (as_int x) as [z|] eqn:Hx.
  - destruct (0 <? z) eqn:Hz.
    + apply Z.ltb_lt in Hz. split; [lia|]. intros _. exists x. split; [left|done].
    + split; [done|]. intros H. destruct (IH2 H) as (y & Hy & Hy').
      exists y. split; [by right|done].
  - split; [done|]. intros H. destruct (IH2 H) as (y & Hy & Hy').
    exists y. split; [by right|done].
Qed.

(** X6: the normalised runtime is never negative; when it is positive
    it is the integer found under "runtime" for a movie, and an integer
    of the list found under "episode_run_time" for any other media
    type; a stored "episode_run_time" that is not a list gives 0. *)
Theorem normalized_runtime_range record media_type :
  0 ≤ _normalized_runtime_minutes record media_type
  ∧ (0 < _normalized_runtime_minutes record media_type →
     if decide (media_type = "movie"%string)
     then as_int (py_get record "runtime")
          = Some (_normalized_runtime_minutes record media_type)
     else ∃ rts x,
            record !! "episode_run_time"%string = Some (PList rts) ∧ x ∈ rts
            ∧ as_int x = Some (_normalized_runtime_minutes record media_type))
  ∧ (∀ v, media_type ≠ "movie"%string →
          record !! "episode_run_time"%string = Some v → (∀ rts, v ≠ PList rts) →
          _normalized_runtime_minutes record media_type = 0).
Proof using.
  clear. unfold _normalized_runtime_minutes, py_get, py_or.
  destruct (decide (media_type = "movie"%string)) as [->|Hmt].
  - split_and!.
    + destruct (as_int _) as [z|]; [|done]. destruct (0 <? z) eqn:Hz; [|done].
      apply Z.ltb_lt in Hz. lia.
    + destruct (as_int _) as [z|]; [|lia]. destruct (0 <? z) eqn:Hz; [done|lia].
    + done.
  - destruct (record !! "episode_run_time"%string) as [v|] eqn:Hv; simpl.
    + split_and!.
      * destruct (truthy v); simpl; [|done].
        destruct v; try done. apply first_positive_from.
      * destruct (truthy v) eqn:Ht; simpl; [|lia].
        destruct v as [| | | |rts|]; try lia.
        intros Hpos. destruct (proj2 (first_positive_from rts) Hpos) as (x & Hx & Hx').
        by exists rts, x.
      * intros v' _ [= <-] Hnot. destruct (truthy v); simpl; [|done].
        destruct v; try done. by destruct (Hnot l).
    + split_and!; [done|simpl; lia|done].
Qed.

(** ** More on the record cache client and on one worker *)

Lemma title_with_credits_ok tid media_type tmdb_id st record st1 :
  title_with_credits media_type tmdb_id tid st = (Ok record, st1) →
  search_cache st1 = search_cache st
  ∧ _load_title_from_cache media_type tmdb_id st1 = Some record.
Proof.
  unfold title_with_credits, bind, gets, get_title, request, modify, ret.
  destruct (_load_title_from_cache media_type tmdb_id st) as [cached|] eqn:Hc.
  - by intros [= <- <-].
  - destruct (tmdb_title read_access_token media_type tmdb_id) as [raw|]; simpl; [|done].
    intros [= <- <-]. split; [done|].
    unfold _load_title_from_cache. simpl. by rewrite lookup_insert_eq.
Qed.

Lemma title_with_credits_hit tid media_type tmdb_id st record :
  _load_title_from_cache media_type tmdb_id st = Some record →
  title_with_credits media_type tmdb_id tid st = (Ok record, st).
Proof.
  intros Hc. unfold title_with_credits, bind, gets, ret. by rewrite Hc.
Qed.

(** X7: a record that [title_with_credits] returned is returned again
    by the next call for it, by any worker, with no request and no
    change of the caches, also when a media type other than "tv" is
    asked for as "movie". A call that raised saved nothing: the next
    call for the record sends the request again. *)
Theorem title_with_credits_again tid tid' media_type tmdb_id st st1 :
  (∀ record,
     title_with_credits media_type tmdb_id tid st = (Ok record, st1) →
     title_with_credits media_type tmdb_id tid' st1 = (Ok record, st1)
     ∧ (media_type ≠ "tv"%string →
        title_with_credits "movie" tmdb_id tid' st1 = (Ok record, st1)))
  ∧ (∀ e,
       title_with_credits media_type tmdb_id tid st = (Raise e, st1) →
       e = TransportError
       ∧ title_files st1 = title_files st
       ∧ calls (title_with_credits media_type tmdb_id tid' st1).2
         = calls st1 ++ [(tid', TitleCall media_type tmdb_id)]).
Proof.
  split.
  - intros record [_ Hload]%title_with_credits_ok. split.
    + by apply title_with_credits_hit.
    + intros Hne. apply title_with_credits_hit.
      revert Hload. unfold _load_title_from_cache, _title_cache_path.
      by rewrite (decide_False (P := media_type = "tv"%string)) by done.
  - intros e. unfold title_with_credits, bind, gets, get_title, request, modify, ret.
    destruct (_load_title_from_cache media_type tmdb_id st) as [cached|] eqn:Hc; [done|].
    destruct (tmdb_title read_access_token media_type tmdb_id) as [raw|]; simpl; [done|].
    intros [= <- <-]. split_and!; [done..|].
    unfold _load_title_from_cache in *. simpl. by rewrite Hc.
Qed.

(** X8: once [worker] has returned for a query, a later call for a
    query with the same cache key returns the same outcome, a no-match
    naming the later query, with no request and no change of the caches. *)
Theorem worker_again tid tid' title year title' year' st r st1 :
  worker title year tid st = (Ok r, st1) →
  _search_cache_key title' year' = _search_cache_key title year →
  worker title' year' tid' st1
  = (Ok match r with
        | NO_MATCH _ _ => NO_MATCH title' year'
        | OK record => OK record
        end, st1).
Proof.
  intros Hw Hkey.
  assert (∃ e, search_cache st1 !! _search_cache_key title year = Some e
               ∧ match usable (e_media_type e) (default 0 (e_id e)) with
                 | None => ∃ t y, r = NO_MATCH t y
                 | Some media_type =>
                     ∃ record, r = OK record
                               ∧ _load_title_from_cache media_type (default 0 (e_id e)) st1
                                 = Some record
                 end) as (e & He & Hr).
  { destruct (search_cache st !! _search_cache_key title year) as [cached|] eqn:Hc.
    - rewrite (worker_cached tid title year st cached Hc) in Hw.
      destruct (usable (e_media_type cached) (default 0 (e_id cached)))
        as [media_type|] eqn:Hus.
      + destruct (title_with_credits media_type (default 0 (e_id cached)) tid st)
          as [[record|e'] s'] eqn:Ht; [|done].
        injection Hw as <- <-.
        destruct (title_with_credits_ok _ _ _ _ _ _ Ht) as [Hsc Hload].
        exists cached. rewrite Hsc, Hus. split; [done|]. by exists record.
      + injection Hw as <- <-. exists cached. rewrite Hus. split; [done|].
        by exists title, year.
    - unfold worker, bind, gets, modify, ret in Hw. rewrite Hc in Hw.
      destruct (search_multi title tid st) as [[results|e'] s1]; [|done].
      destruct (_pick_best_result results year) as [[media_type tmdb_id]|].
      + unfold fetch_resolved, bind, ret in Hw.
        destruct (usable media_type tmdb_id) as [mt|] eqn:Hus.
        * match type of Hw with
          | match title_with_credits ?a ?b ?c ?d with _ => _ end = _ =>
              destruct (title_with_credits a b c d) as [[record|e'] s'] eqn:Ht; [|done]
          end.
          injection Hw as <- <-.
          destruct (title_with_credits_ok _ _ _ _ _ _ Ht) as [Hsc Hload].
          exists {| e_media_type := media_type; e_id := Some tmdb_id |}.
          rewrite Hsc. simpl. rewrite lookup_insert_eq, Hus. split; [done|].
          by exists record.
        * injection Hw as <- <-.
          exists {| e_media_type := media_type; e_id := Some tmdb_id |}.
          simpl. rewrite lookup_insert_eq, Hus. split; [done|]. by exists title, year.
      + injection Hw as <- <-. exists none_entry. simpl.
        rewrite lookup_insert_eq. split; [done|]. by exists title, year. }
  rewrite <- Hkey in He.
  rewrite (worker_cached tid' title' year' st1 e He).
  destruct (usable (e_media_type e) (default 0 (e_id e))) as [media_type|].
  - destruct Hr as (record & -> & Hload).
    by rewrite (title_with_credits_hit tid' _ _ _ _ Hload).
  - by destruct Hr as (t & y & ->).
Qed.


(** ** More on a batch *)

Lemma run_batch_no_match_own titles_years mw schedule st :
  holds (λ _, True)
        (λ _ title year p _, ∀ t y, p = Finished (NO_MATCH t y) → t = title ∧ y = year)
        titles_years (run_batch titles_years mw schedule st).
Proof.
  apply run_batch_holds; [done..|].
  intros i title year p s Hq Hfin _ Hp. split; [done|]. split; [|done].
  intros t y. destruct p; try done; unfold_step; repeat case_match; naive_solver.
Qed.

Lemma reported_length ts order :
  (∀ i, i ∈ order → ∃ r, ts !! i = Some (Finished r)) →
  (length (reported_items ts order) + length (reported_no_match ts order))%nat
  = length order.
Proof.
  unfold reported_items, reported_no_match.
  induction order as [|i order IH]; intros Hall; [done|].
  destruct (Hall i) as [r Hr]; [left|]. simpl. rewrite Hr.
  rewrite <- IH by (intros j Hj; apply Hall; by right).
  destruct r; simpl; rewrite ?Nat.add_succ_r; reflexivity.
Qed.

(** X10: a batch that returns reports every query once: the two lists
    it returns have together as many items as the batch has queries, and
    each item of the second is a query of the batch, as it was given. *)
Theorem batch_reports_every_query titles_years mw schedule st items no_match_items st' :
  resolve_and_fetch_credits_parallel titles_years mw schedule st
  = (Ok (items, no_match_items), st') →
  (length items + length no_match_items)%nat = length titles_years
  ∧ ∀ q, q ∈ no_match_items → q ∈ titles_years.
Proof.
  intros Hrun.
  assert (1 ≤ mw)%nat as Hmw.
  { destruct mw; [|lia]. by unfold resolve_and_fetch_credits_parallel in Hrun. }
  destruct (run_batch_ends titles_years mw schedule st Hmw) as [Hall Hperm].
  destruct (run_batch_well_formed titles_years mw schedule st) as [Hlen _].
  destruct (run_batch_no_match_own titles_years mw schedule st) as [_ Hown].
  destruct (resolve_cases titles_years mw schedule st Hmw) as [[_ Heq]|[Hno Heq]];
    rewrite Heq in Hrun; [done|].
  revert Hall Hperm Hlen Hown Hno Hrun.
  generalize (run_batch titles_years mw schedule st). intros pl Hall Hperm Hlen Hown Hno.
  intros [= <- <- _]. split.
  - rewrite reported_length.
    + by rewrite Hperm, length_seq.
    + intros i Hi. rewrite Hperm in Hi. apply elem_of_seq in Hi.
      destruct (Hall i) as (p & Hp & Hfin); [lia|].
      destruct p as [| | | | | | | |r|e]; try done; [by exists r|].
      by destruct (Hno i e).
  - intros [t y] Hq. unfold reported_no_match in Hq.
    apply list_elem_of_omap in Hq as (i & Hi & Hq).
    destruct (tasks pl !! i) as [p|] eqn:Hp; [|done].
    assert (is_Some (titles_years !! i)) as [[title year] Hqi].
    { apply lookup_lt_is_Some. rewrite <- Hlen. by eapply lookup_lt_Some. }
    destruct p as [| | | | | | | |[t' y'|]|]; try done.
    injection Hq as -> ->.
    destruct (Hown i title year _ Hqi Hp t y eq_refl) as [-> ->].
    by eapply list_elem_of_lookup_2.
Qed.

Lemma run_batch_nil mw schedule st : run_batch [] mw schedule st = submitted [] st.
Proof.
  unfold run_batch, drain, run_schedule. simpl.
  apply fold_left_ind; [done|]. intros pl i ->. reflexivity.
Qed.

(** X11: the two degenerate batches. With no pool thread the call
    raises [ValueError], whatever the queries, having sent no request
    and written no file. With no query it returns two empty lists,
    having sent no request, and writes the search cache it loaded back
    to its file. *)
Theorem degenerate_batches schedule st :
  (∀ titles_years,
     (resolve_and_fetch_credits_parallel titles_years 0 schedule st).1 = Raise ValueError
     ∧ calls (resolve_and_fetch_credits_parallel titles_years 0 schedule st).2 = calls st
     ∧ search_file (resolve_and_fetch_credits_parallel titles_years 0 schedule st).2
       = search_file st
     ∧ title_files (resolve_and_fetch_credits_parallel titles_years 0 schedule st).2
       = title_files st)
  ∧ (∀ mw,
       (1 ≤ mw)%nat →
       (resolve_and_fetch_credits_parallel [] mw schedule st).1 = Ok ([], [])
       ∧ calls (resolve_and_fetch_credits_parallel [] mw schedule st).2 = calls st
       ∧ search_file (resolve_and_fetch_credits_parallel [] mw schedule st).2
         = Some (_load_search_cache st)
       ∧ title_files (resolve_and_fetch_credits_parallel [] mw schedule st).2
         = title_files st).
Proof.
  split.
  - done.
  - intros mw Hmw. unfold resolve_and_fetch_credits_parallel.
    destruct (Nat.eqb_spec mw 0) as [->|_]; [lia|].
    by rewrite run_batch_nil.
Qed.

Lemma sum_list_insert (l : list nat) i x y :
  l !! i = Some x → (sum_list (<[i := y]> l) + x = sum_list l + y)%nat.
Proof.
  revert i. induction l as [|z l IH]; intros [|i] Hi; simplify_eq/=; [lia|].
  specialize (IH i Hi). lia.
Qed.

Lemma wstep_requests_left tid title year p s :
  (length (step_calls tid title p) + requests_left (wstep tid title year p s).1
   ≤ requests_left p)%nat.
Proof.
  destruct p; unfold_step; repeat case_match; simplify_eq/=; lia.
Qed.

Lemma run_batch_request_count titles_years mw schedule st :
  let pl := run_batch titles_years mw schedule st in
  (length (calls st) ≤ length (calls (shared pl)))%nat
  ∧ (length (calls_since st (shared pl)) + sum_list (requests_left <$> tasks pl)
     ≤ 2 * length titles_years)%nat.
Proof.
  cbv zeta.
  apply (run_batch_ind
           (λ pl, length (tasks pl) = length titles_years
                  ∧ (length (calls st) ≤ length (calls (shared pl)))%nat
                  ∧ (length (calls_since st (shared pl))
                     + sum_list (requests_left <$> tasks pl)
                     ≤ 2 * length titles_years)%nat)).
  - unfold submitted, calls_since. simpl.
    rewrite length_replicate, drop_all, fmap_replicate, sum_list_replicate. simpl.
    split_and!; lia.
  - intros i pl (Hlen & Hle & Hsum).
    destruct (pool_step_cases mw titles_years i pl Hlen)
      as [->|(title & year & p & Hq & Hp & Hfin & _ & ->)]; [done|].
    simpl. rewrite length_insert, (calls_since_step _ _ _ _ _ _ Hle), length_app.
    rewrite wstep_calls, length_app, list_fmap_insert.
    pose proof (wstep_requests_left i title year p (shared pl)) as Hstep.
    pose proof (sum_list_insert (requests_left <$> tasks pl) i (requests_left p)
                  (requests_left (wstep i title year p (shared pl)).1)) as Hins.
    rewrite list_lookup_fmap, Hp in Hins. specialize (Hins eq_refl).
    split_and!; [done|lia|lia].
Qed.

(** X12: a batch of n queries sends at most 2n requests: every worker
    sends at most one search request, for the title of its query as it
    was given, and at most one record request; nothing else sends one. *)
Theorem batch_request_bound titles_years mw schedule st :
  let new := calls_since st (shared (run_batch titles_years mw schedule st)) in
  (length new ≤ 2 * length titles_years)%nat
  ∧ (∀ i, (length (searches_by i new) ≤ 1)%nat
          ∧ (length (title_requests_by i new) ≤ 1)%nat)
  ∧ (∀ i c, (i, c) ∈ new →
            ∃ title year,
              titles_years !! i = Some (title, year)
              ∧ (is_search c = true → c = SearchCall title)).
Proof.
  cbv zeta.
  destruct (run_batch_request_count titles_years mw schedule st) as [_ Hcount].
  destruct (run_batch_requests titles_years mw schedule st) as [_ Hreq].
  destruct (run_batch_well_formed titles_years mw schedule st) as [Hlen _].
  pose proof (run_batch_calls_tid titles_years mw schedule st) as Htid.
  revert Hcount Hreq Hlen Htid.
  generalize (run_batch titles_years mw schedule st). intros pl Hcount Hreq Hlen Htid.
  split_and!.
  - lia.
  - intros i. destruct (titles_years !! i) as [[title year]|] eqn:Hq.
    + assert (is_Some (tasks pl !! i)) as [p Hp].
      { apply lookup_lt_is_Some. rewrite Hlen. by eapply lookup_lt_Some. }
      destruct (Hreq i title year p Hq Hp) as (H1 & _ & H2 & _). done.
    + assert (∀ c, (i, c) ∉ calls_since st (shared pl)) as Hnone.
      { intros c Hc. apply Htid in Hc as [? Hc]. by rewrite Hq in Hc. }
      unfold searches_by, title_requests_by.
      rewrite !filter_none; [simpl; lia|..];
        intros [j c] Hjc; simpl;
        destruct (Nat.eqb_spec j i) as [->|]; try done; by destruct (Hnone c).
  - intros i c Hc. destruct (Htid i c Hc) as [[title year] Hq].
    exists title, year. split; [done|]. intros Hs.
    assert (is_Some (tasks pl !! i)) as [p Hp].
    { apply lookup_lt_is_Some. rewrite Hlen. by eapply lookup_lt_Some. }
    destruct (Hreq i title year p Hq Hp) as (_ & _ & _ & _ & Hown).
    apply Hown. unfold searches_by.
    rewrite list_elem_of_In. apply List.filter_In. rewrite <- list_elem_of_In.
    split; [done|]. simpl. by rewrite Nat.eqb_refl, Hs.
Qed.

Lemma run_batch_guarded titles_years mw schedule st :
  holds (λ s, (length (calls st) ≤ length (calls s))%nat
              ∧ (∀ path, is_Some (title_files st !! path) →
                         title_files s !! path = title_files st !! path)
              ∧ ∀ j media_type tmdb_id,
                  (j, TitleCall media_type tmdb_id) ∈ calls_since st s →
                  guarded st (AtTitleGet media_type tmdb_id))
        (λ _ _ _ p _, guarded st p)
        titles_years (run_batch titles_years mw schedule st).
Proof.
  apply run_batch_holds.
  - simpl. split_and!; [done..|]. intros j media_type tmdb_id.
    unfold calls_since. simpl. by rewrite drop_all, elem_of_nil.
  - done.
  - intros i title year p s Hq Hfin (Hle & Hfiles & Hcalls) Hp.
    split; [|split; [|done]].
    + split_and!.
      * rewrite wstep_calls, length_app. lia.
      * intros path Hpath. rewrite <- (Hfiles path Hpath).
        destruct p; try done; unfold_step; repeat case_match; simplify_eq/=; try done.
        apply lookup_insert_ne. intros <-.
        destruct Hp as (_ & _ & Hnone). unfold _load_title_from_cache in Hnone.
        rewrite Hnone in Hpath. by destruct Hpath.
      * intros j media_type tmdb_id.
        rewrite (calls_since_step _ _ _ _ _ _ Hle), elem_of_app.
        intros [Hold|Hnew]; [by eapply Hcalls|].
        destruct p; simpl in Hnew; try by apply elem_of_nil in Hnew.
        -- apply list_elem_of_singleton in Hnew. done.
        -- apply list_elem_of_singleton in Hnew. by simplify_eq.
    + destruct p; try done; unfold_step; repeat case_match; simplify_eq/=; try done.
      all: try match goal with
               | H : usable _ _ = Some _ |- _ =>
                   apply usable_Some in H as (_ & ? & ?); by split
               end.
      destruct Hp as [Hmt Hid]. split_and!; [done..|].
      destruct (title_files st !! _title_cache_path media_type tmdb_id) eqn:Hst; [|done].
      rewrite <- (Hfiles _ (mk_is_Some _ _ Hst)) in Hst.
      unfold _load_title_from_cache in *. congruence.
Qed.

(** X13: a record request is sent only for a movie or a series with
    a non-zero identifier, and only if the record cache had no file for
    it when the batch started. *)
Theorem record_requests_guarded titles_years mw schedule st i media_type tmdb_id :
  (i, TitleCall media_type tmdb_id)
    ∈ calls_since st (shared (run_batch titles_years mw schedule st)) →
  (media_type = "movie"%string ∨ media_type = "tv"%string)
  ∧ tmdb_id ≠ 0
  ∧ _load_title_from_cache media_type tmdb_id st = None.
Proof.
  destruct (run_batch_guarded titles_years mw schedule st) as [(_ & _ & Hcalls) _].
  apply Hcalls.
Qed.

Lemma resolve_title_files titles_years mw schedule st :
  title_files (resolve_and_fetch_credits_parallel titles_years mw schedule st).2
  = if (mw =? 0)%nat then title_files st
    else title_files (shared (run_batch titles_years mw schedule st)).
Proof.
  unfold resolve_and_fetch_credits_parallel.
  destruct (mw =? 0)%nat; [done|].
  generalize (run_batch titles_years mw schedule st). intros pl.
  by destruct (as_completed_loop _ _ _ _) as [[]|].
Qed.

(** X14: a file that the record cache has when a batch starts is
    still there, with the same content, when every worker is done and
    when the call returns or raises: a batch adds record files, it
    rewrites none that it found. *)
Theorem record_files_kept titles_years mw schedule st path record :
  title_files st !! path = Some record →
  title_files (shared (run_batch titles_years mw schedule st)) !! path = Some record
  ∧ title_files (resolve_and_fetch_credits_parallel titles_years mw schedule st).2 !! path
    = Some record.
Proof.
  intros Hpath.
  destruct (run_batch_guarded titles_years mw schedule st) as [(_ & Hfiles & _) _].
  assert (title_files (shared (run_batch titles_years mw schedule st)) !! path
          = Some record) as Hkept.
  { by rewrite Hfiles by (by rewrite Hpath). }
  split; [done|]. rewrite resolve_title_files. by destruct (mw =? 0)%nat.
Qed.

(** X3: when a batch returns, the search-cache file holds every entry
    it held before, an entry under the key of every query of the batch,
    and nothing else than entries it held before and, under the key of a
    query of the batch, what the search for such a query resolves to. *)
Theorem search_cache_file_grows titles_years mw schedule st items no_match_items st' :
  resolve_and_fetch_credits_parallel titles_years mw schedule st
  = (Ok (items, no_match_items), st') →
  ∃ cache,
    search_file st' = Some cache
    ∧ _load_search_cache st ⊆ cache
    ∧ (∀ title year,
         (title, year) ∈ titles_years → is_Some (cache !! _search_cache_key title year))
    ∧ (∀ k e,
         cache !! k = Some e →
         _load_search_cache st !! k = Some e
         ∨ ∃ title year,
             (title, year) ∈ titles_years ∧ _search_cache_key title year = k
             ∧ resolved_entry title year = Some e).
Proof.
  intros Hrun.
  assert (1 ≤ mw)%nat as Hmw.
  { destruct mw; [|lia]. by unfold resolve_and_fetch_credits_parallel in Hrun. }
  destruct (run_batch_ends titles_years mw schedule st Hmw) as [Hall _].
  destruct (run_batch_has_entry titles_years mw schedule st) as [_ Hentry].
  destruct (run_batch_entries titles_years mw schedule st) as [Hfrom _].
  pose proof (λ k cached H, proj1 (cached_entry_kept titles_years mw schedule st k cached H))
    as Hkept.
  destruct (resolve_cases titles_years mw schedule st Hmw) as [[_ Heq]|[Hno Heq]];
    rewrite Heq in Hrun; [done|].
  revert Hall Hentry Hfrom Hkept Hno Hrun.
  generalize (run_batch titles_years mw schedule st).
  intros pl Hall Hentry Hfrom Hkept Hno [= _ _ <-].
  exists (search_cache (shared pl)). split_and!.
  - done.
  - apply map_subseteq_spec. intros k cached Hk. by apply Hkept.
  - intros title year [i Hq]%list_elem_of_lookup.
    destruct (Hall i) as (p & Hp & Hfin); [by eapply lookup_lt_Some|].
    specialize (Hentry i title year p Hq Hp).
    destruct p as [| | | | | | | |r|e]; try done. by destruct (Hno i e).
  - intros k e Hk. destruct (Hfrom k e Hk) as [?|(j & title & year & Hq & ? & ?)];
      [by left|].
    right. exists title, year. split_and!; [|done..]. by eapply list_elem_of_lookup_2.
Qed.

(** ** One pool thread *)

Lemma pool_step_final mw titles_years i pl p :
  tasks pl !! i = Some p → final p = true → pool_step mw titles_years i pl = pl.
Proof. intros Hp Hf. unfold pool_step, may_run. by rewrite Hp, Hf. Qed.

Lemma pool_step_out mw titles_years i pl :
  tasks pl !! i = None → pool_step mw titles_years i pl = pl.
Proof. intros Hp. unfold pool_step, may_run. by rewrite Hp. Qed.

Lemma iter_fixed {A} (f : A → A) (k : nat) (x : A) : f x = x → Nat.iter k f x = x.
Proof. intros Hx. apply (iter_ind (λ y, y = x)); [done|]. by intros y ->. Qed.

Lemma iter_comm {A} (f : A → A) (k : nat) (x : A) : Nat.iter k f (f x) = f (Nat.iter k f x).
Proof. induction k as [|k IH]; [done|]. cbn [Nat.iter nat_rect]. by f_equal. Qed.

Lemma join_worker_final mw titles_years i pl p :
  tasks pl !! i = Some p → final p = true → join_worker mw titles_years pl i = pl.
Proof.
  intros Hp Hf. unfold join_worker. apply iter_fixed. by eapply pool_step_final.
Qed.

Lemma join_worker_out mw titles_years i pl :
  tasks pl !! i = None → join_worker mw titles_years pl i = pl.
Proof. intros Hp. unfold join_worker. apply iter_fixed. by apply pool_step_out. Qed.

(** Joining a worker that took one more step is joining it. *)
Lemma join_worker_step mw titles_years i pl :
  (1 ≤ mw)%nat → (i < length titles_years)%nat →
  well_formed (length titles_years) pl →
  (∀ j, (j < i)%nat → ∃ q, tasks pl !! j = Some q ∧ final q = true) →
  join_worker mw titles_years (pool_step mw titles_years i pl) i
  = join_worker mw titles_years pl i.
Proof.
  intros Hmw Hi Hwf Hbefore.
  destruct (join_worker_ends mw titles_years i pl Hmw Hi Hwf Hbefore) as [_ Hall].
  destruct (Hall i) as (q & Hq & Hfq); [lia|].
  revert Hq. unfold join_worker. rewrite iter_comm.
  generalize (Nat.iter 7 (pool_step mw titles_years i) pl). intros pl' Hq.
  by eapply pool_step_final.
Qed.

(** With one pool thread, a worker takes no step while a worker
    submitted before it is not done. *)
Lemma pool_step_waits titles_years i j pl q :
  serial pl → (j < i)%nat → tasks pl !! j = Some q → final q = false →
  pool_step 1 titles_years i pl = pl.
Proof.
  intros Hserial Hji Hq Hfq. unfold pool_step.
  destruct (may_run 1 (tasks pl) i) eqn:Hrun; [|done].
  destruct (may_run_Some _ _ _ Hrun) as (p & Hp & Hfp).
  destruct (queued p) eqn:Hqp.
  - by rewrite (may_run_one_queued _ _ _ _ _ Hrun Hp Hqp Hji Hq) in Hfq.
  - destruct (Hserial j i q p Hji Hq Hp); congruence.
Qed.

Lemma drain_pool_step titles_years i pl :
  well_formed (length titles_years) pl → serial pl →
  drain 1 titles_years (pool_step 1 titles_years i pl) = drain 1 titles_years pl.
Proof.
  intros Hwf Hserial. unfold drain.
  assert (∀ b a,
    (a + b = length titles_years)%nat →
    (∀ j, (j < a)%nat → ∃ q, tasks pl !! j = Some q ∧ final q = true) →
    fold_left (join_worker 1 titles_years) (seq a b) (pool_step 1 titles_years i pl)
    = fold_left (join_worker 1 titles_years) (seq a b) pl) as Hgen.
  { induction b as [|b IH]; intros a Hab Hbefore.
    - destruct (tasks pl !! i) as [p|] eqn:Hp.
      + destruct (Hbefore i) as (q & Hq & Hfq).
        { apply lookup_lt_Some in Hp. destruct Hwf as [Hlen _]. lia. }
        by rewrite (pool_step_final 1 titles_years i pl q Hq Hfq).
      + by rewrite pool_step_out.
    - rewrite !fold_left_seq_succ.
      assert (is_Some (tasks pl !! a)) as [pa Hpa].
      { apply lookup_lt_is_Some. destruct Hwf as [-> _]. lia. }
      destruct (final pa) eqn:Hfa.
      + destruct (decide (i = a)) as [->|Hia].
        { by rewrite (pool_step_final 1 titles_years a pl pa Hpa Hfa). }
        rewrite (join_worker_final 1 titles_years a pl pa Hpa Hfa).
        rewrite (join_worker_final 1 titles_years a _ pa); [| |done].
        * apply IH; [lia|]. intros j Hj.
          destruct (decide (j = a)) as [->|]; [by exists pa|]. apply Hbefore. lia.
        * by rewrite pool_step_other.
      + destruct (Nat.lt_trichotomy i a) as [Hlt|[->|Hgt]].
        * destruct (Hbefore i Hlt) as (q & Hq & Hfq).
          by rewrite (pool_step_final 1 titles_years i pl q Hq Hfq).
        * rewrite join_worker_step; [done|lia|lia|done|done].
        * by rewrite (pool_step_waits titles_years i a pl pa Hserial Hgt Hpa Hfa). }
  apply (Hgen (length titles_years) 0%nat); [done|]. intros j Hj. lia.
Qed.

Lemma drain_final mw titles_years pl :
  (∀ j p, tasks pl !! j = Some p → final p = true) →
  drain mw titles_years pl = pl.
Proof.
  intros Hall. unfold drain.
  apply (fold_left_ind (λ x, x = pl)); [done|]. intros y i ->.
  destruct (tasks pl !! i) as [p|] eqn:Hp.
  - eapply join_worker_final; [done|]. by eapply Hall.
  - by apply join_worker_out.
Qed.

(** With one pool thread the pool of a batch ends as it does when the
    scheduler picks nothing and the workers are joined in turn. *)
Lemma run_batch_one_thread titles_years schedule st :
  run_batch titles_years 1 schedule st = run_batch titles_years 1 [] st.
Proof.
  change (run_batch titles_years 1 [] st)
    with (drain 1 titles_years (submitted titles_years st)).
  destruct (run_batch_ends titles_years 1 schedule st) as [Hall _]; [lia|].
  destruct (run_batch_well_formed titles_years 1 schedule st) as [Hlen _].
  rewrite <- (drain_final 1 titles_years (run_batch titles_years 1 schedule st)).
  - apply (run_batch_ind
             (λ pl, well_formed (length titles_years) pl ∧ serial pl
                    ∧ drain 1 titles_years pl
                      = drain 1 titles_years (submitted titles_years st))).
    + split_and!; [apply submitted_well_formed| |done].
      intros j k pj pk _ _ [-> _]%lookup_replicate. by right.
    + intros i pl (Hwf & Hserial & Hdrain). split_and!.
      * by apply pool_step_well_formed.
      * by apply pool_step_serial.
      * by rewrite drain_pool_step.
  - intros j p Hp. destruct (Hall j) as (q & Hq & Hfq); [|congruence].
    rewrite <- Hlen. by eapply lookup_lt_Some.
Qed.


Lemma wsteps_queued tid title year st :
  Nat.iter 7 (λ c, wstep tid title year c.1 c.2) (Queued, st)
  = (done_with (worker title year tid st).1, (worker title year tid st).2).
Proof.
  rewrite (Nat.iter_succ_r 6).
  etrans; [exact (worker_alone tid title year st)|].
  by destruct (worker title year tid st) as [[r|e] st'].
Qed.

(** The steps of a worker that is alone to run are those of its thread. *)
Lemma iter_pool_step_alone mw titles_years i title year pl p k :
  (1 ≤ mw)%nat → well_formed (length titles_years) pl →
  (∀ j, (j < i)%nat → ∃ q, tasks pl !! j = Some q ∧ final q = true) →
  titles_years !! i = Some (title, year) → tasks pl !! i = Some p → final p = false →
  Nat.iter k (pool_step mw titles_years i) pl
  = {| tasks := <[i := (Nat.iter k (λ c, wstep i title year c.1 c.2) (p, shared pl)).1]>
                  (tasks pl);
       shared := (Nat.iter k (λ c, wstep i title year c.1 c.2) (p, shared pl)).2;
       completed :=
         if final (Nat.iter k (λ c, wstep i title year c.1 c.2) (p, shared pl)).1
         then completed pl ++ [i] else completed pl |}.
Proof.
  intros Hmw Hwf Hbefore Hq Hp Hf.
  assert (i < length (tasks pl))%nat as Hi by (by eapply lookup_lt_Some).
  induction k as [|k IH].
  - cbn [Nat.iter nat_rect fst snd]. rewrite Hf, (list_insert_id _ _ _ Hp).
    by destruct pl.
  - pose proof (iter_ind (well_formed (length titles_years))
                  (pool_step mw titles_years i) k pl Hwf
                  (λ y, pool_step_well_formed mw titles_years i y)) as Hwfk.
    rewrite !Nat.iter_succ.
    rewrite IH in Hwfk |- *. clear IH.
    destruct (Nat.iter k (λ c, wstep i title year c.1 c.2) (p, shared pl))
      as [pk sk]. cbn [fst snd] in *.
    destruct (final pk) eqn:Hfk.
    + rewrite (wstep_final _ _ _ _ _ Hfk). cbn [fst snd]. rewrite Hfk.
      eapply pool_step_final; [|exact Hfk].
      cbn [tasks]. by apply list_lookup_insert_eq.
    + assert (may_run mw (<[i := pk]> (tasks pl)) i = true) as Hrun.
      { eapply (may_run_next mw _ i pk _ Hmw Hwfk); [|by apply list_lookup_insert_eq|done].
        intros j Hj. cbn [tasks]. rewrite list_lookup_insert_ne by lia.
        by apply Hbefore. }
      unfold pool_step. cbn [tasks shared completed].
      rewrite Hrun, Hq, list_lookup_insert_eq by done.
      destruct (wstep i title year pk sk) as [p' s']. cbn [fst snd].
      by rewrite list_insert_insert_eq.
Qed.

Lemma join_worker_queued mw titles_years i title year pl :
  (1 ≤ mw)%nat → well_formed (length titles_years) pl →
  (∀ j, (j < i)%nat → ∃ q, tasks pl !! j = Some q ∧ final q = true) →
  titles_years !! i = Some (title, year) → tasks pl !! i = Some Queued →
  join_worker mw titles_years pl i
  = {| tasks := <[i := done_with (worker title year i (shared pl)).1]> (tasks pl);
       shared := (worker title year i (shared pl)).2;
       completed := completed pl ++ [i] |}.
Proof.
  intros Hmw Hwf Hbefore Hq Hp. unfold join_worker.
  rewrite (iter_pool_step_alone mw titles_years i title year pl Queued 7); try done.
  rewrite wsteps_queued. cbn [fst snd].
  by destruct (worker title year i (shared pl)) as [[r|e] st'].
Qed.

Lemma drain_in_order mw titles_years :
  (1 ≤ mw)%nat →
  ∀ b a pl,
    (a + b = length titles_years)%nat →
    well_formed (length titles_years) pl →
    (∀ j, (j < a)%nat → ∃ q, tasks pl !! j = Some q ∧ final q = true) →
    (∀ j, (a ≤ j)%nat → (j < length titles_years)%nat → tasks pl !! j = Some Queued) →
    tasks (fold_left (join_worker mw titles_years) (seq a b) pl)
    = take a (tasks pl)
      ++ (done_with <$> (run_in_order a (drop a titles_years) (shared pl)).1)
    ∧ shared (fold_left (join_worker mw titles_years) (seq a b) pl)
      = (run_in_order a (drop a titles_years) (shared pl)).2
    ∧ completed (fold_left (join_worker mw titles_years) (seq a b) pl)
      = completed pl ++ seq a b.
Proof.
  intros Hmw. induction b as [|b IH]; intros a pl Hab Hwf Hbefore Hqueued.
  - rewrite drop_ge by lia. cbn [seq fold_left run_in_order fst snd fmap list_fmap].
    rewrite take_ge by (destruct Hwf as [-> _]; lia).
    by rewrite !app_nil_r.
  - assert (is_Some (titles_years !! a)) as [[title year] Hq].
    { apply lookup_lt_is_Some. lia. }
    assert (tasks pl !! a = Some Queued) as Hp by (apply Hqueued; lia).
    rewrite fold_left_seq_succ.
    destruct (join_worker_ends mw titles_years a pl Hmw ltac:(lia) Hwf Hbefore)
      as [Hwf1 Hbefore1].
    revert Hwf1 Hbefore1.
    rewrite (join_worker_queued mw titles_years a title year pl Hmw Hwf Hbefore Hq Hp).
    intros Hwf1 Hbefore1.
    rewrite (drop_S _ _ _ Hq). cbn [run_in_order fst snd].
    destruct (IH (S a) _ ltac:(lia) Hwf1 Hbefore1) as (Htasks & Hshared & Hcompleted).
    { intros j Hj Hjn. cbn [tasks]. rewrite list_lookup_insert_ne by lia.
      apply Hqueued; lia. }
    cbn [tasks shared completed] in Htasks, Hshared, Hcompleted.
    split_and!.
    + rewrite Htasks.
      rewrite (take_S_r _ _ (done_with (worker title year a (shared pl)).1)).
      * rewrite take_insert_ge by done. by rewrite <- app_assoc.
      * apply list_lookup_insert_eq. by eapply lookup_lt_Some.
    + exact Hshared.
    + rewrite Hcompleted. by rewrite <- app_assoc.
Qed.

(** X16: with one pool thread a batch is the loop that calls [worker]
    for each query in turn, whatever the scheduler picks: the workers
    end as these calls return or raise, each call being made even after
    one that raised; the caches and the requests are those the loop
    leaves; the workers complete in the order of the queries. *)
Theorem one_thread_in_order titles_years schedule st :
  tasks (run_batch titles_years 1 schedule st)
  = done_with
      <$> (run_in_order 0 titles_years (set_search_cache (_load_search_cache st) st)).1
  ∧ shared (run_batch titles_years 1 schedule st)
    = (run_in_order 0 titles_years (set_search_cache (_load_search_cache st) st)).2
  ∧ completed (run_batch titles_years 1 schedule st) = seq 0 (length titles_years).
Proof.
  rewrite (run_batch_one_thread titles_years schedule st).
  change (run_batch titles_years 1 [] st)
    with (fold_left (join_worker 1 titles_years) (seq 0 (length titles_years))
            (submitted titles_years st)).
  destruct (drain_in_order 1 titles_years ltac:(lia) (length titles_years) 0%nat
              (submitted titles_years st)) as (Htasks & Hshared & Hcompleted).
  - done.
  - apply submitted_well_formed.
  - intros j Hj. lia.
  - intros j _ Hj. cbn [submitted tasks]. by apply lookup_replicate_2.
  - split_and!; [exact Htasks|exact Hshared|exact Hcompleted].
Qed.

(** ** The pool and the record files *)



Lemma run_batch_saves_fetched titles_years mw schedule st :
  holds (λ s, (∀ path, is_Some (title_files st !! path) →
                       title_files s !! path = title_files st !! path)
              ∧ ∀ path record, title_files s !! path = Some record →
                               file_from st path record)
        (λ _ _ _ p s, saves_fetched st p s)
        titles_years (run_batch titles_years mw schedule st).
Proof.
  destruct (run_batch_guarded titles_years mw schedule st) as [_ Hguard].
  cut (holds (λ s, (∀ path, is_Some (title_files st !! path) →
                            title_files s !! path = title_files st !! path)
                   ∧ ∀ path record, title_files s !! path = Some record →
                                    file_from st path record)
             (λ _ _ _ p s, guarded st p ∧ saves_fetched st p s)
             titles_years (run_batch titles_years mw schedule st)).
  { intros [HG HT]. split; [exact HG|]. intros j title year p Hq Hp.
    by destruct (HT j title year p Hq Hp). }
  clear Hguard. apply run_batch_holds.
  - split; [done|]. intros path record Hpath. by left.
  - done.
  - intros i title year p s Hq Hfin [Hkept Hfrom] [Hg Hp].
    assert (guarded st (wstep i title year p s).1) as Hg'.
    { destruct p; try done; unfold_step; repeat case_match; simplify_eq/=; try done.
      all: try match goal with
               | H : usable _ _ = Some _ |- _ =>
                   apply usable_Some in H as (_ & ? & ?); by split
               end.
      destruct Hg as [Hmt Hid]. split_and!; [done..|].
      destruct (title_files st !! _title_cache_path media_type tmdb_id) eqn:Hst; [|done].
      rewrite <- (Hkept _ (mk_is_Some _ _ Hst)) in Hst.
      unfold _load_title_from_cache in *. congruence. }
    split; [|split; [split; [exact Hg'|]|]].
    + destruct p; try done; unfold_step; repeat case_match; simplify_eq/=; try done.
      destruct Hp as [Hnone Hrec]. split.
      * intros path Hpath. rewrite lookup_insert_ne; [by apply Hkept|].
        intros <-. rewrite Hnone in Hpath. by destruct Hpath.
      * intros path record'.
        destruct (decide (path = _title_cache_path media_type tmdb_id)) as [->|Hne].
        -- rewrite lookup_insert_eq. by intros [= <-].
        -- rewrite lookup_insert_ne by done. apply Hfrom.
    + destruct p; try done; unfold_step; repeat case_match; simplify_eq/=; try done.
      * eauto.
      * destruct Hg as (Hmt & _ & Hnone). unfold _load_title_from_cache in Hnone.
        split; [done|]. right.
        match goal with
        | H : tmdb_title _ _ _ = Some ?raw |- _ => by exists media_type, tmdb_id, raw
        end.
      * eexists. by apply lookup_insert_eq.
    + intros j title' year' q Hji Hq' [Hgq Hsq]. split; [exact Hgq|].
      destruct q as [| | | | | | | |[|record']|]; try done.
      destruct Hsq as [path Hpath].
      destruct p; try (exists path; unfold_step; repeat case_match; by simplify_eq/=).
      cbn [wstep snd _save_title_to_cache]. unfold _save_title_to_cache. cbn [title_files set_title_files].
      destruct (decide (path = _title_cache_path media_type tmdb_id)) as [->|Hne].
      * exists (_title_cache_path media_type tmdb_id).
        unfold set_title_files. cbn [title_files]. rewrite lookup_insert_eq.
        destruct Hg as (Hmt & _ & _). destruct Hp as [Hnone Hrec].
        destruct (Hfrom _ _ Hpath) as [Hold|(mt & id' & raw & Hmt' & Heq & Hraw & ->)].
        { assert (is_Some (title_files st !! _title_cache_path media_type tmdb_id))
            as [? Hsome] by (by eexists).
          congruence. }
        destruct Hrec as [Hold|(mt2 & id2 & raw2 & Hmt2 & Heq2 & Hraw2 & ->)];
          [congruence|].
        rewrite (title_cache_path_movie_tv _ _ Hmt) in Heq, Heq2.
        rewrite (title_cache_path_movie_tv _ _ Hmt') in Heq.
        rewrite (title_cache_path_movie_tv _ _ Hmt2) in Heq2.
        simplify_eq. done.
      * exists path. unfold set_title_files. cbn [title_files].
        by rewrite lookup_insert_ne.
Qed.

(** X18: every record a batch returns is, when the call returns, the
    content of a file of the record cache; and every file of the record
    cache is then one the batch found when it started, or holds what the
    remote catalog answers for a movie or a series, with the two helper
    keys. *)
Theorem returned_items_are_cached titles_years mw schedule st items no_match_items st' :
  resolve_and_fetch_credits_parallel titles_years mw schedule st
  = (Ok (items, no_match_items), st') →
  (∀ record, record ∈ items → ∃ path, title_files st' !! path = Some record)
  ∧ (∀ path record, title_files st' !! path = Some record → file_from st path record).
Proof.
  intros Hrun.
  assert (1 ≤ mw)%nat as Hmw.
  { destruct mw; [|lia]. by unfold resolve_and_fetch_credits_parallel in Hrun. }
  destruct (run_batch_saves_fetched titles_years mw schedule st) as [[_ Hfrom] Hsaved].
  destruct (run_batch_well_formed titles_years mw schedule st) as [Hlen _].
  destruct (resolve_cases titles_years mw schedule st Hmw) as [[_ Heq]|[Hno Heq]];
    rewrite Heq in Hrun; [done|].
  revert Hfrom Hsaved Hlen Hno Hrun.
  generalize (run_batch titles_years mw schedule st).
  intros pl Hfrom Hsaved Hlen Hno [= <- _ <-]. split.
  - intros record Hrec. unfold reported_items in Hrec.
    apply list_elem_of_omap in Hrec as (i & Hi & Hrec).
    destruct (tasks pl !! i) as [p|] eqn:Hp; [|done].
    assert (is_Some (titles_years !! i)) as [[title year] Hq].
    { apply lookup_lt_is_Some. rewrite <- Hlen. by eapply lookup_lt_Some. }
    destruct p as [| | | | | | | |[|record']|]; try done.
    injection Hrec as ->. exact (Hsaved i title year _ Hq Hp).
  - exact Hfrom.
Qed.

(** ** A first run, whatever the schedule *)



(** ** Several batches in a row *)

Lemma resolve_caches_grow titles_years mw schedule st :
  _load_search_cache st
    ⊆ _load_search_cache (resolve_and_fetch_credits_parallel titles_years mw schedule st).2
  ∧ title_files st
      ⊆ title_files (resolve_and_fetch_credits_parallel titles_years mw schedule st).2.
Proof.
  split.
  - destruct (run_batch_search_file titles_years mw schedule st) as [Hfile _].
    pose proof (λ k cached H,
                  proj1 (cached_entry_kept titles_years mw schedule st k cached H))
      as Hkept.
    unfold resolve_and_fetch_credits_parallel.
    destruct (mw =? 0)%nat; [done|].
    revert Hfile Hkept. generalize (run_batch titles_years mw schedule st).
    intros pl Hfile Hkept.
    destruct (as_completed_loop _ _ _ _) as [[items no_match_items]|e]; simpl.
    + apply map_subseteq_spec. intros k cached Hk. by apply Hkept.
    + unfold _load_search_cache. by rewrite Hfile.
  - rewrite resolve_title_files. destruct (mw =? 0)%nat; [done|].
    destruct (run_batch_guarded titles_years mw schedule st) as [(_ & Hfiles & _) _].
    apply map_subseteq_spec. intros path record Hpath.
    by rewrite Hfiles by (by rewrite Hpath).
Qed.

(** X20: over any number of batches in a row, whether they return or
    raise, the two caches only grow: every entry of the search-cache
    file and every record file is still there, unchanged, after the
    last batch. *)
Theorem caches_only_grow runs st :
  _load_search_cache st ⊆ _load_search_cache (run_batches runs st)
  ∧ title_files st ⊆ title_files (run_batches runs st).
Proof.
  unfold run_batches.
  apply (fold_left_ind
           (λ s, _load_search_cache st ⊆ _load_search_cache s
                 ∧ title_files st ⊆ title_files s)); [done|].
  intros s run [Hsearch Hfiles].
  destruct (resolve_caches_grow run.1.1 run.1.2 run.2 s) as [Hsearch' Hfiles'].
  split; by etrans.
Qed.

End Catalog.

(** * The properties on examples *)


Lemma title_with_credits_spec_witness :
  _load_title_from_cache "movie" 1 cold = None
  ∧ calls (title_with_credits "token" demo_title "movie" 1 0%nat cold).2
    = [(0%nat, TitleCall "movie" 1)].
Proof.
  split; [reflexivity|].
  apply (proj2 (title_with_credits_spec "token" demo_title 0%nat "movie" 1 cold)).
  reflexivity.
Defined.












(** ** The further properties on examples *)


Lemma search_cache_file_grows_witness :
  ∃ items no_match_items st',
    resolve_and_fetch_credits_parallel "token" demo_search demo_title
      [("Up"%string, Some 2009); ("Nope"%string, None)] 12 [1%nat; 0%nat; 1%nat]
      (warm (<["old|"%string := none_entry]> ∅) ∅)
    = (Ok (items, no_match_items), st')
    ∧ ∃ cache, search_file st' = Some cache
               ∧ _load_search_cache (warm (<["old|"%string := none_entry]> ∅) ∅) ⊆ cache.
Proof.
  destruct (resolve_and_fetch_credits_parallel "token" demo_search demo_title
              [("Up"%string, Some 2009); ("Nope"%string, None)] 12
              [1%nat; 0%nat; 1%nat] (warm (<["old|"%string := none_entry]> ∅) ∅))
    as [[[items no_match_items]|e] st'] eqn:Hrun.
  - exists items, no_match_items, st'. split; [reflexivity|].
    destruct (search_cache_file_grows "token" demo_search demo_title
                [("Up"%string, Some 2009); ("Nope"%string, None)] 12
                [1%nat; 0%nat; 1%nat] (warm (<["old|"%string := none_entry]> ∅) ∅)
                items no_match_items st' Hrun)
      as (cache & Hfile & Hsub & _).
    exists cache. split; [exact Hfile|exact Hsub].
  - apply (f_equal (λ run, match run.1 with Ok _ => true | Raise _ => false end)) in Hrun.
    vm_compute in Hrun. discriminate Hrun.
Defined.

Lemma pick_best_result_total_witness :
  _pick_best_result [tv "2011-01-01" 2; movie "2009-05-29" 1] (Some 2009)
  = Some (Some "movie"%string, 1)
  ∧ ∃ c, c ∈ [tv "2011-01-01" 2; movie "2009-05-29" 1] ∧ 1 = c_id c
         ∧ (is_Some (c_media_type c) → Some "movie"%string = c_media_type c).
Proof.
  split; [reflexivity|].
  apply (proj1 (proj2 (pick_best_result_total
                         [tv "2011-01-01" 2; movie "2009-05-29" 1] (Some 2009)))).
  reflexivity.
Defined.

Lemma normalized_runtime_range_witness :
  "tv"%string ≠ "movie"%string
  ∧ _normalized_runtime_minutes (<["episode_run_time"%string := PStr "45"]> ∅) "tv" = 0.
Proof.
  split; [discriminate|].
  apply (proj2 (proj2 (normalized_runtime_range
                         (<["episode_run_time"%string := PStr "45"]> ∅) "tv"))
           (PStr "45")).
  - discriminate.
  - reflexivity.
  - discriminate.
Defined.

Lemma title_with_credits_again_witness :
  ∃ record st1,
    title_with_credits "token" demo_title "movie" 1 0%nat cold = (Ok record, st1)
    ∧ title_with_credits "token" demo_title "movie" 1 5%nat st1 = (Ok record, st1).
Proof.
  destruct (title_with_credits "token" demo_title "movie" 1 0%nat cold)
    as [[record|e] st1] eqn:Hrun.
  - exists record, st1. split; [reflexivity|].
    exact (proj1 (proj1 (title_with_credits_again "token" demo_title 0%nat 5%nat
                           "movie" 1 cold st1) record Hrun)).
  - apply (f_equal (λ run, match run.1 with Ok _ => true | Raise _ => false end)) in Hrun.
    vm_compute in Hrun. discriminate Hrun.
Defined.

Lemma worker_again_witness :
  _search_cache_key " UP " (Some 2009) = _search_cache_key "Up" (Some 2009)
  ∧ ∃ record st1,
      worker "token" demo_search demo_title "Up" (Some 2009) 0%nat cold
      = (Ok (OK record), st1)
      ∧ worker "token" demo_search demo_title " UP " (Some 2009) 1%nat st1
        = (Ok (OK record), st1).
Proof.
  split; [reflexivity|].
  destruct (worker "token" demo_search demo_title "Up" (Some 2009) 0%nat cold)
    as [[[title year|record]|e] st1] eqn:Hrun.
  - apply (f_equal (λ run, match run.1 with Ok (OK _) => true | _ => false end)) in Hrun.
    vm_compute in Hrun. discriminate Hrun.
  - exists record, st1. split; [reflexivity|].
    apply (worker_again "token" demo_search demo_title 0%nat 1%nat
             "Up" (Some 2009) " UP " (Some 2009) cold (OK record) st1 Hrun).
    reflexivity.
  - apply (f_equal (λ run, match run.1 with Ok (OK _) => true | _ => false end)) in Hrun.
    vm_compute in Hrun. discriminate Hrun.
Defined.

Lemma batch_reports_every_query_witness :
  ∃ items no_match_items st',
    resolve_and_fetch_credits_parallel "token" demo_search demo_title
      [("Up"%string, Some 2009); ("Nope"%string, None); ("Ghost"%string, None)]
      2 [1%nat; 0%nat; 1%nat; 2%nat] cold
    = (Ok (items, no_match_items), st')
    ∧ (length items + length no_match_items)%nat = 3%nat.
Proof.
  destruct (resolve_and_fetch_credits_parallel "token" demo_search demo_title
              [("Up"%string, Some 2009); ("Nope"%string, None); ("Ghost"%string, None)]
              2 [1%nat; 0%nat; 1%nat; 2%nat] cold)
    as [[[items no_match_items]|e] st'] eqn:Hrun.
  - exists items, no_match_items, st'. split; [reflexivity|].
    exact (proj1 (batch_reports_every_query "token" demo_search demo_title
                    [("Up"%string, Some 2009); ("Nope"%string, None);
                     ("Ghost"%string, None)]
                    2 [1%nat; 0%nat; 1%nat; 2%nat] cold items no_match_items st' Hrun)).
  - apply (f_equal (λ run, match run.1 with Ok _ => true | Raise _ => false end)) in Hrun.
    vm_compute in Hrun. discriminate Hrun.
Defined.

Lemma degenerate_batches_witness :
  (1 ≤ 12)%nat
  ∧ (resolve_and_fetch_credits_parallel "token" demo_search demo_title
       [] 12 [3%nat; 1%nat] cold).1 = Ok ([], [])
  ∧ search_file (resolve_and_fetch_credits_parallel "token" demo_search demo_title
                   [] 12 [3%nat; 1%nat] cold).2 = Some ∅.
Proof.
  split; [lia|].
  destruct (proj2 (degenerate_batches "token" demo_search demo_title [3%nat; 1%nat] cold)
              12%nat ltac:(lia)) as (Hret & _ & Hfile & _).
  split; [exact Hret|exact Hfile].
Defined.

Lemma batch_request_bound_witness :
  (0%nat, SearchCall "Up")
    ∈ calls_since cold
        (shared (run_batch "token" demo_search demo_title
                   [("Up"%string, Some 2009)] 12 [] cold))
  ∧ ∃ title year,
      [("Up"%string, Some 2009)] !! 0%nat = Some (title, year)
      ∧ (is_search (SearchCall "Up") = true → SearchCall "Up" = SearchCall title).
Proof.
  assert ((0%nat, SearchCall "Up")
            ∈ calls_since cold
                (shared (run_batch "token" demo_search demo_title
                           [("Up"%string, Some 2009)] 12 [] cold))) as Hin.
  { vm_compute. left. }
  split; [exact Hin|].
  exact (proj2 (proj2 (batch_request_bound "token" demo_search demo_title
                         [("Up"%string, Some 2009)] 12 [] cold))
           0%nat (SearchCall "Up") Hin).
Defined.

Lemma record_requests_guarded_witness :
  (0%nat, TitleCall "movie" 1)
    ∈ calls_since cold
        (shared (run_batch "token" demo_search demo_title
                   [("Up"%string, Some 2009)] 12 [] cold))
  ∧ _load_title_from_cache "movie" 1 cold = None.
Proof.
  assert ((0%nat, TitleCall "movie" 1)
            ∈ calls_since cold
                (shared (run_batch "token" demo_search demo_title
                           [("Up"%string, Some 2009)] 12 [] cold))) as Hin.
  { vm_compute. right. left. }
  split; [exact Hin|].
  exact (proj2 (proj2 (record_requests_guarded "token" demo_search demo_title
                         [("Up"%string, Some 2009)] 12 [] cold 0%nat "movie" 1 Hin))).
Defined.

Lemma record_files_kept_witness :
  title_files (warm ∅ (<[("movie"%string, 1) := ∅]> ∅)) !! ("movie"%string, 1) = Some ∅
  ∧ title_files
      (resolve_and_fetch_credits_parallel "token" demo_search demo_title
         [("Up"%string, Some 2009); ("Heat"%string, None)] 12 [1%nat; 0%nat]
         (warm ∅ (<[("movie"%string, 1) := ∅]> ∅))).2 !! ("movie"%string, 1)
    = Some ∅.
Proof.
  split; [reflexivity|].
  apply (record_files_kept "token" demo_search demo_title
           [("Up"%string, Some 2009); ("Heat"%string, None)] 12 [1%nat; 0%nat]
           (warm ∅ (<[("movie"%string, 1) := ∅]> ∅)) ("movie"%string, 1) ∅).
  reflexivity.
Defined.


Lemma returned_items_are_cached_witness :
  ∃ items no_match_items st',
    resolve_and_fetch_credits_parallel "token" demo_search demo_title
      [("Up"%string, Some 2009); ("up"%string, Some 2011)] 12 [1%nat; 0%nat] cold
    = (Ok (items, no_match_items), st')
    ∧ ∀ record, record ∈ items → ∃ path, title_files st' !! path = Some record.
Proof.
  destruct (resolve_and_fetch_credits_parallel "token" demo_search demo_title
              [("Up"%string, Some 2009); ("up"%string, Some 2011)] 12 [1%nat; 0%nat] cold)
    as [[[items no_match_items]|e] st'] eqn:Hrun.
  - exists items, no_match_items, st'. split; [reflexivity|].
    exact (proj1 (returned_items_are_cached "token" demo_search demo_title
                    [("Up"%string, Some 2009); ("up"%string, Some 2011)] 12
                    [1%nat; 0%nat] cold items no_match_items st' Hrun)).
  - apply (f_equal (λ run, match run.1 with Ok _ => true | Raise _ => false end)) in Hrun.
    vm_compute in Hrun. discriminate Hrun.
Defined.


